(** * TypeCord: the [Group] container, the role manager and the interaction
      classifier, embedded from the TypeScript sources.

    Part I holds the embedding (definitions only), Part II the properties.

    Conventions of the embedding
    - a JavaScript array is a [list]; array indices and the numeric
      arguments of [slice] and [at] are integers ([Z]), with the clamping the
      language prescribes written out;
    - the internal entry list of a JavaScript [Map] ([[MapData]]) is an
      association list in insertion order; the [Map] keeps keys unique, which
      is the predicate [MapData_wf];
    - mutable objects that are passed around by reference ([this], the
      argument of [merge]) live in a store indexed by references;
    - an abrupt completion ([throw], a rejected promise) is the [Throw]
      constructor of [Completion]. *)

From Stdlib Require Import ZArith Lia.
From stdpp Require Import base option list gmap strings.

Open Scope Z_scope.
Open Scope nat_scope.

(* ===================================================================== *)
(** * Part I: the embedding                                               *)
(* ===================================================================== *)

(** ** The fragment of the JavaScript runtime the sources rely on *)

Module Js.

(** The exceptions the runtime itself raises in the modelled code, and the
    rejection of a remote request. *)
Inductive Thrown : Type :=
  | TypeError_reduce_of_empty_array
    (* Array.prototype.reduce / reduceRight: empty array, no initial value *)
  | TypeError_property_of_undefined (prop : string)
    (* reading property [prop] of [undefined] *)
  | RequestRejected (status : Z).
    (* the promise of an HTTP request was rejected *)

Inductive Completion (A : Type) : Type :=
  | Normal (a : A)
  | Throw (e : Thrown).
Arguments Normal {A} a.
Arguments Throw {A} e.

Section Arrays.
Context {A : Type}.

(** [arr.at(index)]: a negative index counts from the end; out of range
    is [undefined]. *)
Definition Array_at (arr : list A) (index : Z) : option A :=
  let len := Z.of_nat (length arr) in
  let k := if (0 <=? index)%Z then index else (len + index)%Z in
  if ((k <? 0)%Z || (len <=? k)%Z)%bool then None else arr !! Z.to_nat k.

(** The clamping of a relative index in [slice]. *)
Definition relative_index (len i : Z) : Z :=
  if (i <? 0)%Z then Z.max (len + i) 0 else Z.min i len.

(** [arr.slice(start, end)]; [end_ = None] is the omitted argument. *)
Definition Array_slice (arr : list A) (start : Z) (end_ : option Z) : list A :=
  let len := Z.of_nat (length arr) in
  let k := relative_index len start in
  let final := match end_ with
                 | None => len
                 | Some e => relative_index len e
               end in
  take (Z.to_nat (Z.max (final - k) 0)) (drop (Z.to_nat k) arr).

(** [arr.filter(predicate)]: the callback receives the element, its
    index and the array. *)
Fixpoint filter_from (predicate : A → nat → list A → bool) (arr : list A)
    (index : nat) (rest : list A) : list A :=
  match rest with
  | [] => []
  | x :: rest' =>
      if predicate x index arr
      then x :: filter_from predicate arr (S index) rest'
      else filter_from predicate arr (S index) rest'
  end.

Definition Array_filter (predicate : A → nat → list A → bool) (arr : list A) : list A :=
  filter_from predicate arr 0 arr.

(** [arr.reduce(callbackfn)] with no initial value. *)
Fixpoint reduce_from (callbackfn : A → A → nat → list A → A) (arr : list A)
    (accumulator : A) (k : nat) (rest : list A) : A :=
  match rest with
  | [] => accumulator
  | x :: rest' => reduce_from callbackfn arr (callbackfn accumulator x k arr) (S k) rest'
  end.

Definition Array_reduce (callbackfn : A → A → nat → list A → A) (arr : list A)
    : Completion A :=
  match arr with
  | [] => Throw TypeError_reduce_of_empty_array
  | x :: rest => Normal (reduce_from callbackfn arr x 1 rest)
  end.

(** [arr.reduceRight(callbackfn)] with no initial value.  [rest_rev]
    holds the elements still to visit, the one of highest index first;
    the index of its head is the length of its tail. *)
Fixpoint reduceRight_from (callbackfn : A → A → nat → list A → A) (arr : list A)
    (accumulator : A) (rest_rev : list A) : A :=
  match rest_rev with
  | [] => accumulator
  | x :: rest' =>
      reduceRight_from callbackfn arr (callbackfn accumulator x (length rest') arr) rest'
  end.

Definition Array_reduceRight (callbackfn : A → A → nat → list A → A) (arr : list A)
    : Completion A :=
  match reverse arr with
  | [] => Throw TypeError_reduce_of_empty_array
  | x :: rest' => Normal (reduceRight_from callbackfn arr x rest')
  end.
End Arrays.

(** A plain object as built by [Object.fromEntries]: its own properties in
    creation order.  [CreateDataProperty] overwrites the value of a
    property that exists and appends one that does not.  (An enumeration of
    the object would list integer-like names first; nothing here enumerates
    an object.) *)
Abbreviation Obj V := (list (string * V)).

Section Objects.
Context {V : Type}.

Fixpoint CreateDataProperty (o : Obj V) (p : string) (v : V) : Obj V :=
  match o with
  | [] => [(p, v)]
  | (q, w) :: o' =>
      if decide (q = p) then (q, v) :: o' else (q, w) :: CreateDataProperty o' p v
  end.

Definition Object_fromEntries (entries : list (string * V)) : Obj V :=
  foldl (λ o e, CreateDataProperty o e.1 e.2) [] entries.
End Objects.

(** The [Map] built-in.  Keys are compared with SameValueZero, which is
    the decidable equality of the key type. *)
Abbreviation MapData K V := (list (K * V)).

Section Maps.
Context {K V : Type} `{EqDecision K}.

Fixpoint Map_get (key : K) (m : MapData K V) : option V :=
  match m with
  | [] => None
  | (k, v) :: m' => if decide (k = key) then Some v else Map_get key m'
  end.

Fixpoint Map_has (key : K) (m : MapData K V) : bool :=
  match m with
  | [] => false
  | (k, _) :: m' => if decide (k = key) then true else Map_has key m'
  end.

(** [set] replaces the value of an existing entry where it stands and
    appends a new entry otherwise. *)
Fixpoint Map_set (key : K) (value : V) (m : MapData K V) : MapData K V :=
  match m with
  | [] => [(key, value)]
  | (k, v) :: m' =>
      if decide (k = key) then (k, value) :: m' else (k, v) :: Map_set key value m'
  end.

(** [delete] removes the entry of the key and tells whether there was one. *)
Fixpoint Map_delete (key : K) (m : MapData K V) : bool * MapData K V :=
  match m with
  | [] => (false, [])
  | (k, v) :: m' =>
      if decide (k = key) then (true, m')
      else let r := Map_delete key m' in (r.1, (k, v) :: r.2)
  end.

Definition Map_size (m : MapData K V) : nat := length m.
Definition Map_entries (m : MapData K V) : list (K * V) := m.
Definition Map_keys (m : MapData K V) : list K := m.*1.
Definition Map_values (m : MapData K V) : list V := m.*2.

(** The representation invariant of a [Map]: no key occurs twice. *)
Definition MapData_wf (m : MapData K V) : Prop := NoDup (Map_keys m).

(** A call of one of the two mutators, and a sequence of such calls. *)
Inductive MapOp : Type :=
  | OpSet (key : K) (value : V)
  | OpDelete (key : K).

Definition Map_apply (m : MapData K V) (op : MapOp) : MapData K V :=
  match op with
  | OpSet key value => Map_set key value m
  | OpDelete key => (Map_delete key m).2
  end.

Definition Map_run (ops : list MapOp) (m : MapData K V) : MapData K V :=
  foldl Map_apply m ops.
End Maps.
Arguments MapOp : clear implicits.

(** The other array methods the group delegates to.  Every callback
    receives the element, its index and the array. *)
Section Searches.
Context {A : Type}.

(** [arr.find(predicate)]. *)
Fixpoint find_from (predicate : A → nat → list A → bool) (arr : list A)
    (k : nat) (rest : list A) : option A :=
  match rest with
  | [] => None
  | x :: rest' =>
      if predicate x k arr then Some x else find_from predicate arr (S k) rest'
  end.

Definition Array_find (predicate : A → nat → list A → bool) (arr : list A) : option A :=
  find_from predicate arr 0 arr.

(** [arr.findIndex(predicate)]: the index of the first match, or -1. *)
Fixpoint findIndex_from (predicate : A → nat → list A → bool) (arr : list A)
    (k : nat) (rest : list A) : Z :=
  match rest with
  | [] => (-1)%Z
  | x :: rest' =>
      if predicate x k arr then Z.of_nat k else findIndex_from predicate arr (S k) rest'
  end.

Definition Array_findIndex (predicate : A → nat → list A → bool) (arr : list A) : Z :=
  findIndex_from predicate arr 0 arr.

(** [arr.every(predicate)] and [arr.some(predicate)]. *)
Fixpoint every_from (predicate : A → nat → list A → bool) (arr : list A)
    (k : nat) (rest : list A) : bool :=
  match rest with
  | [] => true
  | x :: rest' =>
      if predicate x k arr then every_from predicate arr (S k) rest' else false
  end.

Definition Array_every (predicate : A → nat → list A → bool) (arr : list A) : bool :=
  every_from predicate arr 0 arr.

Fixpoint some_from (predicate : A → nat → list A → bool) (arr : list A)
    (k : nat) (rest : list A) : bool :=
  match rest with
  | [] => false
  | x :: rest' =>
      if predicate x k arr then true else some_from predicate arr (S k) rest'
  end.

Definition Array_some (predicate : A → nat → list A → bool) (arr : list A) : bool :=
  some_from predicate arr 0 arr.

(** [arr.map(callbackfn)]. *)
Definition Array_map {B} (callbackfn : A → nat → list A → B) (arr : list A) : list B :=
  imap (λ k x, callbackfn x k arr) arr.

(** [arr.reverse()] on an array nobody else holds. *)
Definition Array_reverse (arr : list A) : list A := reverse arr.

(** [arr[index]] for an integer index: a negative index names no element. *)
Definition Array_index (arr : list A) (index : Z) : option A :=
  if (index <? 0)%Z then None else arr !! Z.to_nat index.
End Searches.

(** [o[p]] on a plain object. *)
Fixpoint Object_get {V} (o : Obj V) (p : string) : option V :=
  match o with
  | [] => None
  | (q, w) :: o' => if decide (q = p) then Some w else Object_get o' p
  end.

End Js.

(** ** src/utils/Group.ts *)

Module Group.
Import Js.

(** Modelled from the spec: the constant [EMPTY_GROUP_VALUE] is imported
    from constants/constants.json, which is not among the sources; the spec
    states that [empty] holds iff the size is 0. *)
Definition EMPTY_GROUP_VALUE : nat := 0.

(** The result of [first] and [last], which is either an entry of the
    group (or [undefined]) or a plain object. *)
Inductive Picked (K V : Type) : Type :=
  | PickedEntry (e : option (K * V))
  | PickedObject (o : Obj V).
Arguments PickedEntry {K V} e.
Arguments PickedObject {K V} o.

Section Queries.
Context {K V : Type} `{EqDecision K}.
(** The conversion of a key to a property name, used by
    [Object.fromEntries]. *)
Variable ToPropertyKey : K → string.

Definition toArray (this : MapData K V) : list V := Map_values this.

Definition reduce (callbackfn : V → V → nat → list V → V) (this : MapData K V)
    : Completion V :=
  Array_reduce callbackfn (toArray this).

Definition reduceRight (callbackfn : V → V → nat → list V → V) (this : MapData K V)
    : Completion V :=
  Array_reduceRight callbackfn (toArray this).

Definition empty (this : MapData K V) : bool :=
  bool_decide (Map_size this = EMPTY_GROUP_VALUE).

Definition fromEntries (entries : list (K * V)) : Obj V :=
  Object_fromEntries (prod_map ToPropertyKey id <$> entries).

(** [amount = None] is the omitted argument ([typeof amount] is
    ["undefined"]).  A fractional amount is truncated by [slice], so the
    integers cover every numeric argument that is not NaN or infinite. *)
Definition first (amount : option Z) (this : MapData K V) : Picked K V :=
  let entries := Map_entries this in
  match amount with
  | Some n => PickedObject (fromEntries (Array_slice entries 0 (Some n)))
  | None => PickedEntry (Array_at entries 0)
  end.

Definition last (amount : option Z) (this : MapData K V) : Picked K V :=
  let entries := Map_entries this in
  match amount with
  | Some n => PickedObject (fromEntries (Array_slice entries (- n) None))
  | None => PickedEntry (Array_at entries 0)
  end.
End Queries.

(** *** The methods that mutate groups and return [this]

    Groups are objects: [merge] and [sweep] change the receiver where it
    stands and hand back the reference they were called on, and the argument
    of [merge] may be the receiver itself.  A store maps references to the
    entry lists of the maps that are alive.  A method yields [None] when it
    is handed a reference that is not allocated, or when the fuel of a loop
    runs out before the loop ends. *)

Definition ref := nat.

Section Methods.
Context {K V : Type} `{EqDecision K}.
Abbreviation Store := (gmap ref (MapData K V)).

(** [M.set(key, value)] and [M.delete(key)] on the map behind a reference. *)
Definition set (this : ref) (key : K) (value : V) (σ : Store) : option Store :=
  m ← σ !! this;
  Some (<[this := Map_set key value m]> σ).

Definition delete (this : ref) (key : K) (σ : Store) : option (bool * Store) :=
  m ← σ !! this;
  let r := Map_delete key m in
  Some (r.1, <[this := r.2]> σ).

(** [Map.prototype.forEach]: the entry list is read afresh at every step, so
    entries the callback appends are visited too.  (The callbacks of this
    file never delete from the map that is being traversed.) *)
Fixpoint Map_forEach_from (fuel : nat) (callbackfn : V → K → Store → option Store)
    (M : ref) (index : nat) (σ : Store) : option Store :=
  match fuel with
  | O => None
  | S fuel' =>
      entries ← σ !! M;
      match entries !! index with
      | None => Some σ
      | Some (key, value) =>
          σ' ← callbackfn value key σ;
          Map_forEach_from fuel' callbackfn M (S index) σ'
      end
  end.

Definition Map_forEach (fuel : nat) (callbackfn : V → K → Store → option Store)
    (M : ref) (σ : Store) : option Store :=
  Map_forEach_from fuel callbackfn M 0 σ.

(** [Array.prototype.forEach] over a detached array. *)
Fixpoint Array_forEach {A} (callbackfn : A → Store → option Store) (arr : list A)
    (σ : Store) : option Store :=
  match arr with
  | [] => Some σ
  | x :: arr' => σ' ← callbackfn x σ; Array_forEach callbackfn arr' σ'
  end.

Definition merge (fuel : nat) (this group : ref) (σ : Store) : option (ref * Store) :=
  σ' ← Map_forEach fuel (λ value key, set this key value) group σ;
  Some (this, σ').

Definition sweep (predicate : K * V → nat → list (K * V) → bool) (this : ref)
    (σ : Store) : option (ref * Store) :=
  m ← σ !! this;
  let filtered := Array_filter predicate (Map_entries m) in
  σ' ← Array_forEach (λ e σ, snd <$> delete this e.1 σ) filtered σ;
  Some (this, σ').
End Methods.

(** *** The queries that delegate to the array methods *)

Section Delegates.
Context {K V : Type} `{EqDecision K}.
Variable ToPropertyKey : K → string.

Definition find (func : V → nat → list V → bool) (this : MapData K V) : option V :=
  Array_find func (toArray this).

Definition map {U} (func : K * V → nat → list (K * V) → U) (this : MapData K V) : list U :=
  Array_map func (Map_entries this).

Definition filter (func : V → nat → list V → bool) (this : MapData K V) : list V :=
  Array_filter func (toArray this).

Definition every (func : V → nat → list V → bool) (this : MapData K V) : bool :=
  Array_every func (toArray this).

Definition some (func : V → nat → list V → bool) (this : MapData K V) : bool :=
  Array_some func (toArray this).

Definition toJSON (this : MapData K V) : Obj V :=
  fromEntries ToPropertyKey (Map_entries this).

Definition at_ (index : Z) (this : MapData K V) : option V :=
  Array_at (toArray this) index.

Definition hasAll (keys : list K) (this : MapData K V) : bool :=
  Array_every (λ key _ _, Map_has key this) keys.

Definition hasAny (keys : list K) (this : MapData K V) : bool :=
  Array_some (λ key _ _, Map_has key this) keys.

Definition findKey (predicate : V → nat → list V → bool) (this : MapData K V) : option K :=
  let index := Array_findIndex predicate (toArray this) in
  Array_index (Map_keys this) index.

Definition reverse (this : MapData K V) : list V := Array_reverse (toArray this).

Definition mapValues {U} (callbackfn : V → nat → list V → U) (this : MapData K V) : list U :=
  Array_map callbackfn (toArray this).
End Delegates.

(** [clone]: [new Group()] allocates a reference the store does not hold
    yet, and the entries read beforehand are set into it one by one. *)
Section Clone.
Context {K V : Type} `{EqDecision K}.

Definition clone (this : ref) (σ : gmap ref (MapData K V))
    : option (ref * gmap ref (MapData K V)) :=
  m ← σ !! this;
  let entries := Map_entries m in
  let newGroup := fresh (dom σ) in
  σ' ← Array_forEach (λ e σ, set newGroup e.1 e.2 σ) entries (<[newGroup := []]> σ);
  Some (newGroup, σ').
End Clone.

End Group.

(** ** The role manager (managers/RoleManager.ts) *)

Module RoleManager.
Import Js.

Definition Snowflake := string.

(** What the manager reads of a [RoleResolvable].  The positions of roles
    are integers. *)
Record RoleResolvable : Type := {
  id : Snowflake;
  position : Z
}.

(** The collaborators of the manager that are not among the sources: the
    [Role] structure with its own [edit], and the HTTP client.  A remote
    call reads and changes the state of the outside world, and its promise
    is fulfilled or rejected. *)
Class Remote : Type := {
  World : Type;
  Role : Type;
  RawGuildRole : Type;
  CreateRoleOptions : Type;
  EditRoleOptions : Type;
  RawGuildRole_id : RawGuildRole → Snowflake;
  new_Role : RawGuildRole → Snowflake → Role;
  Role_edit : Role → EditRoleOptions → World → Completion Role * World;
  api_post_GuildRoles : Snowflake → CreateRoleOptions → World → Completion RawGuildRole * World;
  api_delete_GuildRole : Snowflake → Snowflake → option string → World → Completion unit * World
}.

Section Manager.
Context `{Remote}.

Record State : Type := {
  guild_id : Snowflake;
  cache : MapData Snowflake Role
}.

Definition comparePosition (role1 role2 : RoleResolvable) : Z :=
  if (position role1 >? position role2)%Z
  then (position role1 - position role2)%Z
  else (position role2 - position role1)%Z.

(** The result of [create] is what [this.cache.get(data.id)] yields. *)
Definition create (options : CreateRoleOptions) (this : State) (w : World)
    : Completion (option Role) * State * World :=
  match api_post_GuildRoles (guild_id this) options w with
  | (Throw e, w') => (Throw e, this, w')
  | (Normal data, w') =>
      let this' := {| guild_id := guild_id this;
                      cache := Map_set (RawGuildRole_id data)
                                 (new_Role data (guild_id this)) (cache this) |} in
      (Normal (Map_get (RawGuildRole_id data) (cache this')), this', w')
  end.

Definition delete (role : RoleResolvable) (reason : option string) (this : State)
    (w : World) : Completion unit * State * World :=
  match api_delete_GuildRole (guild_id this) (id role) reason w with
  | (Throw e, w') => (Throw e, this, w')
  | (Normal _, w') =>
      (Normal tt,
       {| guild_id := guild_id this; cache := (Map_delete (id role) (cache this)).2 |},
       w')
  end.

(** [this.cache.get(role.id)!.edit(options)]: the assertion [!] is erased by
    the compiler, so on a missing entry the member [edit] is read off
    [undefined]. *)
Definition edit (role : RoleResolvable) (options : EditRoleOptions) (this : State)
    (w : World) : Completion Role * State * World :=
  match Map_get (id role) (cache this) with
  | None => (Throw (TypeError_property_of_undefined "edit"), this, w)
  | Some cached =>
      let r := Role_edit cached options w in
      (r.1, this, r.2)
  end.

Definition resolveId (role : RoleResolvable) : Snowflake := id role.
End Manager.

(** *** The constructor

    What the constructor reaches outside the sources: the constructor of
    [BasicManager], the guild cache of the client, and the position of a
    role.  The expression handed to the guild cache is [first().guildId],
    which is never an identifier: it is [undefined] or, were [first] to
    yield an object, the role stored under the name ["guildId"]. *)
Class Registry `{Remote} : Type := {
  Client : Type;
  Guild : Type;
  BasicManager_constructor : Client → Completion unit;
  Guild_id : Guild → Snowflake;
  Role_position : Role → Z;
  guilds_cache_get : Client → option Role → option Guild
}.

Section Construction.
Context `{Registry}.

Record Manager : Type := {
  state : State;
  guild : Guild;
  everyone : option Role;
  highest : Role
}.

(** [picked.guildId]. *)
Definition guildId_of (picked : Group.Picked Snowflake Role) : Completion (option Role) :=
  match picked with
  | Group.PickedEntry None => Throw (TypeError_property_of_undefined "guildId")
  | Group.PickedEntry (Some _) => Normal None
  | Group.PickedObject o => Normal (Object_get o "guildId")
  end.

(** The field initialiser [cache = new Group()] runs when [super(client)]
    has returned, before the statements of the body. *)
Definition constructor (client : Client) : Completion Manager :=
  match BasicManager_constructor client with
  | Throw e => Throw e
  | Normal _ =>
      let cache : MapData Snowflake Role := [] in
      match guildId_of (Group.first (λ key, key) None cache) with
      | Throw e => Throw e
      | Normal key =>
          match guilds_cache_get client key with
          | None => Throw (TypeError_property_of_undefined "id")
          | Some g =>
              let everyone := Map_get (Guild_id g) cache in
              match Group.reduce
                      (λ maxRole role _ _,
                         if (Role_position maxRole >? Role_position role)%Z
                         then maxRole else role)
                      cache with
              | Throw e => Throw e
              | Normal highest =>
                  Normal {| state := {| guild_id := Guild_id g; cache := cache |};
                            guild := g;
                            everyone := everyone;
                            highest := highest |}
              end
          end
      end
  end.
End Construction.

End RoleManager.


(** ** The interaction classifier (structures/BasicInteraction.ts) *)

(** src/types/app-commands.ts: [enum ContextMenuTypes { User = 2, Message }]. *)
Module ContextMenuTypes.
Definition User : Z := 2.
Definition Message : Z := 3.
End ContextMenuTypes.

(** The enumerations of props/ComponentTypes and props/InteractionTypes are
    not among the sources; their numeric values are parameters. *)
Class Enums : Type := {
  ComponentTypes_Button : Z;
  ComponentTypes_StringSelectMenu : Z;
  ComponentTypes_TextInput : Z;
  ComponentTypes_UserSelectMenu : Z;
  ComponentTypes_RoleSelectMenu : Z;
  ComponentTypes_MentionableSelectMenu : Z;
  ComponentTypes_ChannelSelectMenu : Z;
  InteractionTypes_ApplicationCommand : Z;
  InteractionTypes_MessageComponent : Z;
  InteractionTypes_ApplicationCommandAutocomplete : Z;
  InteractionTypes_ModalSubmit : Z
}.

(** The sub-entities and their constructors (managers/Guild, GuildMember,
    User, Message), the client and the arithmetic on IEEE doubles behind the
    creation timestamp are collaborators outside the sources.  The
    constructors are total: construction of a sub-entity does not fail. *)
Class Entities : Type := {
  Client : Type;
  RawGuild : Type;
  RawMember : Type;
  RawUser : Type;
  RawMessage : Type;
  Guild : Type;
  GuildMember : Type;
  User : Type;
  Message : Type;
  Number : Type;
  Date : Type;
  new_Guild : option RawGuild → Client → Guild;
  new_GuildMember : RawMember → Client → option string → GuildMember;
  new_User : RawUser → Client → User;
  new_Message : RawMessage → Client → Message;
  Guild_id : Guild → option string;
  RawGuild_id : RawGuild → option string;
  guilds_cache_has : Client → option string → bool;
  (* (+id / 4194304) + 1420070400000 *)
  timestamp_of : option string → Number;
  new_Date : Number → Date
}.

(** What the class reads of the nested [data] payload ([IInteractionData]). *)
Module IInteractionData.
Record t : Type := {
  type : option Z;
  target_id : option string;
  component_type : option Z
}.
End IInteractionData.

(** The raw payload.  It arrives untyped, so every property may be missing:
    [None] is a property the payload does not have. *)
Module RawInteractionData.
Section Raw.
Context `{Entities}.
Record t : Type := {
  id : option string;
  application_id : option string;
  type : option Z;
  data : option IInteractionData.t;
  guild : option RawGuild;
  channel_id : option string;
  member : option RawMember;
  user : option RawUser;
  token : option string;
  version : option Z;
  message : option RawMessage;
  app_permissions : option string;
  locale : option string;
  guild_locale : option string
}.
End Raw.
End RawInteractionData.

Module BasicInteraction.
Import Js.

(** A field declared with the type of a sub-entity holds, at run time,
    [undefined], a constructed entity, or a raw sub-payload. *)
Inductive Slot (R E : Type) : Type :=
  | Undefined
  | Built (e : E)
  | RawValue (r : R).
Arguments Undefined {R E}.
Arguments Built {R E} e.
Arguments RawValue {R E} r.

Section Class.
Context `{Entities} `{Enums}.

Record t : Type := {
  client : Client;
  id : option string;
  application_id : option string;
  type : option Z;
  data : option IInteractionData.t;
  guild : Slot RawGuild Guild;
  channel_id : option string;
  member : Slot RawMember GuildMember;
  user : Slot RawUser User;
  token : option string;
  version : option Z;
  message : Slot RawMessage Message;
  app_permissions : option string;
  locale : option string;
  guild_locale : option string;
  component_type : option Z;
  creation_timestamp : Number;
  creation_date : Date
}.

(** [this.guild.id], whatever [this.guild] holds. *)
Definition guild_id_of (g : Slot RawGuild Guild) : option string :=
  match g with
  | Undefined => None
  | Built e => Guild_id e
  | RawValue r => RawGuild_id r
  end.

(** The assignments of the constructor body, before [Object.assign]. *)
Definition assignments (data : RawInteractionData.t) (c : Client) : t :=
  let guild := new_Guild (RawInteractionData.guild data) c in
  let timestamp := timestamp_of (RawInteractionData.id data) in
  {| client := c;
     id := RawInteractionData.id data;
     application_id := RawInteractionData.application_id data;
     type := RawInteractionData.type data;
     data := RawInteractionData.data data;
     guild := Built guild;
     channel_id := RawInteractionData.channel_id data;
     member := match RawInteractionData.member data with
               | Some m => Built (new_GuildMember m c (Guild_id guild))
               | None => Undefined
               end;
     user := match RawInteractionData.user data with
             | Some u => Built (new_User u c)
             | None => Undefined
             end;
     token := RawInteractionData.token data;
     version := RawInteractionData.version data;
     message := match RawInteractionData.message data with
                | Some m => Built (new_Message m c)
                | None => Undefined
                end;
     app_permissions := RawInteractionData.app_permissions data;
     locale := RawInteractionData.locale data;
     guild_locale := RawInteractionData.guild_locale data;
     component_type := RawInteractionData.data data ≫= IInteractionData.component_type;
     creation_timestamp := timestamp;
     creation_date := new_Date timestamp |}.

(** One step of [Object.assign(this, data)]: an own property of the source
    is written over the field of the same name. *)
Definition assign_scalar {A} (current source : option A) : option A :=
  match source with
  | Some x => Some x
  | None => current
  end.

Definition assign_slot {R E} (current : Slot R E) (source : option R) : Slot R E :=
  match source with
  | Some r => RawValue r
  | None => current
  end.

Definition Object_assign (this : t) (source : RawInteractionData.t) : t :=
  {| client := client this;
     id := assign_scalar (id this) (RawInteractionData.id source);
     application_id := assign_scalar (application_id this) (RawInteractionData.application_id source);
     type := assign_scalar (type this) (RawInteractionData.type source);
     data := assign_scalar (data this) (RawInteractionData.data source);
     guild := assign_slot (guild this) (RawInteractionData.guild source);
     channel_id := assign_scalar (channel_id this) (RawInteractionData.channel_id source);
     member := assign_slot (member this) (RawInteractionData.member source);
     user := assign_slot (user this) (RawInteractionData.user source);
     token := assign_scalar (token this) (RawInteractionData.token source);
     version := assign_scalar (version this) (RawInteractionData.version source);
     message := assign_slot (message this) (RawInteractionData.message source);
     app_permissions := assign_scalar (app_permissions this) (RawInteractionData.app_permissions source);
     locale := assign_scalar (locale this) (RawInteractionData.locale source);
     guild_locale := assign_scalar (guild_locale this) (RawInteractionData.guild_locale source);
     component_type := component_type this;
     creation_timestamp := creation_timestamp this;
     creation_date := creation_date this |}.

(** [new BasicInteraction(data, client)].  No statement of the body can
    throw, so the completion is always normal. *)
Definition constructor (data : RawInteractionData.t) (c : Client) : Completion t :=
  Normal (Object_assign (assignments data c) data).

(** [a === b] on values that are numbers or [undefined]. *)
Definition strict_eq (a : option Z) (b : Z) : bool := bool_decide (a = Some b).

(** [arr.includes(x)]: SameValueZero agrees with [===] away from NaN. *)
Definition includes (arr : list Z) (x : option Z) : bool :=
  bool_decide (x ∈ (Some <$> arr)).

(** The truthiness of a value that is a string or [undefined]. *)
Definition truthy (s : option string) : bool :=
  match s with
  | Some s' => negb (String.eqb s' EmptyString)
  | None => false
  end.

Definition inCachedGuild (this : t) : bool :=
  guilds_cache_has (client this) (guild_id_of (guild this)).

Definition inUncachedGuild (this : t) : bool :=
  negb (guilds_cache_has (client this) (guild_id_of (guild this))).

Definition inGuild (this : t) : bool := truthy (guild_id_of (guild this)).

Definition isApplicationCommandAutocomplete (this : t) : bool :=
  strict_eq (type this) InteractionTypes_ApplicationCommandAutocomplete.

Definition isModalSubmit (this : t) : bool :=
  strict_eq (type this) InteractionTypes_ModalSubmit.

Definition isMessageComponent (this : t) : bool :=
  strict_eq (type this) InteractionTypes_MessageComponent.

Definition isApplicationCommand (this : t) : bool :=
  strict_eq (type this) InteractionTypes_ApplicationCommand.

Definition isButton (this : t) : bool :=
  strict_eq (component_type this) ComponentTypes_Button.

Definition isChannelSelectMenu (this : t) : bool :=
  strict_eq (component_type this) ComponentTypes_ChannelSelectMenu.

Definition isStringSelectMenu (this : t) : bool :=
  strict_eq (component_type this) ComponentTypes_StringSelectMenu.

Definition isUserSelectMenu (this : t) : bool :=
  strict_eq (component_type this) ComponentTypes_UserSelectMenu.

Definition isRoleSelectMenu (this : t) : bool :=
  strict_eq (component_type this) ComponentTypes_RoleSelectMenu.

Definition isMentionableSelectMenu (this : t) : bool :=
  strict_eq (component_type this) ComponentTypes_MentionableSelectMenu.

Definition isAnySelectMenu (this : t) : bool :=
  includes [ComponentTypes_StringSelectMenu; ComponentTypes_ChannelSelectMenu;
            ComponentTypes_MentionableSelectMenu; ComponentTypes_RoleSelectMenu;
            ComponentTypes_UserSelectMenu]
           (component_type this).

Definition isTextInput (this : t) : bool :=
  strict_eq (component_type this) ComponentTypes_TextInput.

(** [this.data?.target_id] and [this.data.type]. *)
Definition data_target_id (this : t) : option string :=
  data this ≫= IInteractionData.target_id.

Definition data_type (this : t) : option Z :=
  data this ≫= IInteractionData.type.

Definition isMessageContextMenu (this : t) : bool :=
  truthy (data_target_id this) && strict_eq (data_type this) ContextMenuTypes.Message.

Definition isUserContextMenu (this : t) : bool :=
  truthy (data_target_id this) && strict_eq (data_type this) ContextMenuTypes.User.

Definition isAnyContextMenu (this : t) : bool := truthy (data_target_id this).

(** An enumeration gives its members different numbers. *)
Definition ComponentTypes_distinct : Prop :=
  NoDup [ComponentTypes_Button; ComponentTypes_StringSelectMenu; ComponentTypes_TextInput;
         ComponentTypes_UserSelectMenu; ComponentTypes_RoleSelectMenu;
         ComponentTypes_MentionableSelectMenu; ComponentTypes_ChannelSelectMenu].

Definition InteractionTypes_distinct : Prop :=
  NoDup [InteractionTypes_ApplicationCommand; InteractionTypes_MessageComponent;
         InteractionTypes_ApplicationCommandAutocomplete; InteractionTypes_ModalSubmit].
End Class.

End BasicInteraction.

(** ** Concrete collaborators, used to run the code on examples *)

Module Scenario.
Import Js.

(** Sub-entities that are known by their identifier only; the client is the
    list of the identifiers of its cached guilds. *)
Definition entities : Entities := {|
  Client := list string;
  RawGuild := string;
  RawMember := string;
  RawUser := string;
  RawMessage := string;
  Guild := option string;
  GuildMember := string * option string;
  User := string;
  Message := string;
  Number := unit;
  Date := unit;
  new_Guild := λ raw _, raw;
  new_GuildMember := λ raw _ guild_id, (raw, guild_id);
  new_User := λ raw _, raw;
  new_Message := λ raw _, raw;
  Guild_id := λ g, g;
  RawGuild_id := λ raw, Some raw;
  guilds_cache_has := λ c i, bool_decide (i ∈ (Some <$> c));
  timestamp_of := λ _, tt;
  new_Date := λ _, tt
|}.

(** The numbering of the platform's API. *)
Definition enums : Enums := {|
  ComponentTypes_Button := 2;
  ComponentTypes_StringSelectMenu := 3;
  ComponentTypes_TextInput := 4;
  ComponentTypes_UserSelectMenu := 5;
  ComponentTypes_RoleSelectMenu := 6;
  ComponentTypes_MentionableSelectMenu := 7;
  ComponentTypes_ChannelSelectMenu := 8;
  InteractionTypes_ApplicationCommand := 2;
  InteractionTypes_MessageComponent := 3;
  InteractionTypes_ApplicationCommandAutocomplete := 4;
  InteractionTypes_ModalSubmit := 5
|}.

(** A remote that accepts every request; a role is its name, and the server
    gives every new role the identifier "42". *)
Definition remote : RoleManager.Remote := {|
  RoleManager.World := unit;
  RoleManager.Role := string;
  RoleManager.RawGuildRole := string * string;
  RoleManager.CreateRoleOptions := string;
  RoleManager.EditRoleOptions := string;
  RoleManager.RawGuildRole_id := fst;
  RoleManager.new_Role := λ raw _, raw.2;
  RoleManager.Role_edit := λ _ options w, (Normal options, w);
  RoleManager.api_post_GuildRoles := λ _ options w, (Normal ("42", options), w);
  RoleManager.api_delete_GuildRole := λ _ _ _ w, (Normal tt, w)
|}.

#[local] Existing Instance entities.
#[local] Existing Instance enums.
#[local] Existing Instance remote.

(** The payload of the classification scenario: [type = 2],
    [data = {type: 2, target_id: "99"}]. *)
Definition user_menu_payload : @RawInteractionData.t entities := {|
  RawInteractionData.id := Some "175928847299117063";
  RawInteractionData.application_id := Some "1";
  RawInteractionData.type := Some 2%Z;
  RawInteractionData.data :=
    Some {| IInteractionData.type := Some 2%Z;
            IInteractionData.target_id := Some "99";
            IInteractionData.component_type := None |};
  RawInteractionData.guild := None;
  RawInteractionData.channel_id := None;
  RawInteractionData.member := None;
  RawInteractionData.user := Some "7";
  RawInteractionData.token := Some "t";
  RawInteractionData.version := Some 1%Z;
  RawInteractionData.message := None;
  RawInteractionData.app_permissions := None;
  RawInteractionData.locale := None;
  RawInteractionData.guild_locale := None
|}.

Definition user_menu_interaction : @BasicInteraction.t entities :=
  BasicInteraction.Object_assign
    (BasicInteraction.assignments user_menu_payload []) user_menu_payload.

(** A payload that has neither an identifier nor a primary type. *)
Definition untyped_payload : @RawInteractionData.t entities := {|
  RawInteractionData.id := None;
  RawInteractionData.application_id := Some "1";
  RawInteractionData.type := None;
  RawInteractionData.data := None;
  RawInteractionData.guild := Some "5";
  RawInteractionData.channel_id := None;
  RawInteractionData.member := Some "8";
  RawInteractionData.user := None;
  RawInteractionData.token := Some "t";
  RawInteractionData.version := Some 1%Z;
  RawInteractionData.message := None;
  RawInteractionData.app_permissions := None;
  RawInteractionData.locale := None;
  RawInteractionData.guild_locale := None
|}.

(** A manager of guild "5" whose cache holds the role "42". *)
Definition manager : @RoleManager.State remote :=
  {| RoleManager.guild_id := "5"; RoleManager.cache := [("42", "Admin")] |}.

Definition role_42 : RoleManager.RoleResolvable :=
  {| RoleManager.id := "42"; RoleManager.position := 1 |}.

(** A remote that rejects every request. *)
Definition rejecting_remote : RoleManager.Remote := {|
  RoleManager.World := unit;
  RoleManager.Role := string;
  RoleManager.RawGuildRole := string * string;
  RoleManager.CreateRoleOptions := string;
  RoleManager.EditRoleOptions := string;
  RoleManager.RawGuildRole_id := fst;
  RoleManager.new_Role := λ raw _, raw.2;
  RoleManager.Role_edit := λ _ _ w, (Throw (RequestRejected 403), w);
  RoleManager.api_post_GuildRoles := λ _ _ w, (Throw (RequestRejected 403), w);
  RoleManager.api_delete_GuildRole := λ _ _ _ w, (Throw (RequestRejected 403), w)
|}.

Definition refused_manager : @RoleManager.State rejecting_remote :=
  @RoleManager.Build_State rejecting_remote "5" [("42", "Admin")].

(** A client whose guild cache answers every lookup, and a constructor of
    [BasicManager] that returns. *)
Definition registry : @RoleManager.Registry remote := {|
  RoleManager.Client := unit;
  RoleManager.Guild := string;
  RoleManager.BasicManager_constructor := λ _, Normal tt;
  RoleManager.Guild_id := λ g, g;
  RoleManager.Role_position := λ _, 0%Z;
  RoleManager.guilds_cache_get := λ _ _, Some "5"
|}.

(** A payload of a component interaction: a button in guild "5". *)
Definition button_payload : @RawInteractionData.t entities := {|
  RawInteractionData.id := Some "175928847299117063";
  RawInteractionData.application_id := Some "1";
  RawInteractionData.type := Some 3%Z;
  RawInteractionData.data :=
    Some {| IInteractionData.type := None;
            IInteractionData.target_id := None;
            IInteractionData.component_type := Some 2%Z |};
  RawInteractionData.guild := Some "5";
  RawInteractionData.channel_id := Some "6";
  RawInteractionData.member := Some "8";
  RawInteractionData.user := None;
  RawInteractionData.token := Some "t";
  RawInteractionData.version := Some 1%Z;
  RawInteractionData.message := Some "9";
  RawInteractionData.app_permissions := None;
  RawInteractionData.locale := None;
  RawInteractionData.guild_locale := None
|}.

(** An application command whose nested data names a target but carries
    the type of a slash command (1), which is no menu type. *)
Definition targeted_command_payload : @RawInteractionData.t entities := {|
  RawInteractionData.id := Some "175928847299117063";
  RawInteractionData.application_id := Some "1";
  RawInteractionData.type := Some 2%Z;
  RawInteractionData.data :=
    Some {| IInteractionData.type := Some 1%Z;
            IInteractionData.target_id := Some "99";
            IInteractionData.component_type := None |};
  RawInteractionData.guild := None;
  RawInteractionData.channel_id := None;
  RawInteractionData.member := None;
  RawInteractionData.user := Some "7";
  RawInteractionData.token := Some "t";
  RawInteractionData.version := Some 1%Z;
  RawInteractionData.message := None;
  RawInteractionData.app_permissions := None;
  RawInteractionData.locale := None;
  RawInteractionData.guild_locale := None
|}.

Definition targeted_command : @BasicInteraction.t entities :=
  BasicInteraction.Object_assign
    (BasicInteraction.assignments targeted_command_payload []) targeted_command_payload.

Definition button_interaction : @BasicInteraction.t entities :=
  BasicInteraction.Object_assign
    (BasicInteraction.assignments button_payload ["5"]) button_payload.

(** The group of the container scenarios. *)
Definition abc : MapData string string := [("1", "a"); ("2", "b"); ("3", "c")].
Definition one_two_three : MapData string Z := [("1", 1%Z); ("2", 2%Z); ("3", 3%Z)].
End Scenario.

(* ===================================================================== *)
(** * Part II: properties                                                 *)
(* ===================================================================== *)

Import Js.

(** ** The [Map] built-in *)

Section MapFacts.
Context {K V : Type} `{EqDecision K}.
Implicit Types (m : MapData K V) (k key : K) (v value : V).

Lemma Map_empty_wf : MapData_wf ([] : MapData K V).
Proof. apply NoDup_nil_2. Qed.

Lemma Map_has_is_Some key m : Map_has key m = true ↔ is_Some (Map_get key m).
Proof.
  induction m as [|[k v] m IH]; csimpl.
  - split; [done | by intros [? ?]].
  - destruct (decide (k = key)); [by split; eauto | done].
Qed.

Lemma Map_has_keys key m : Map_has key m = true ↔ key ∈ Map_keys m.
Proof.
  unfold Map_keys. induction m as [|[k v] m IH]; csimpl.
  - split; [done | by intros ?%elem_of_nil].
  - rewrite elem_of_cons. destruct (decide (k = key)) as [->|Hne].
    + split; auto.
    + rewrite IH. split; [auto | by intros [?|?]].
Qed.

Lemma Map_get_None key m : Map_get key m = None ↔ key ∉ Map_keys m.
Proof.
  rewrite <- Map_has_keys, Map_has_is_Some, <- eq_None_not_Some. done.
Qed.

Lemma Map_get_Some_elem key v m : Map_get key m = Some v → (key, v) ∈ m.
Proof.
  induction m as [|[k w] m IH]; csimpl; [done|].
  destruct (decide (k = key)) as [->|Hne].
  - intros [= ->]. left.
  - intros Hg. right. auto.
Qed.

Lemma Map_get_elem key v m : MapData_wf m → (key, v) ∈ m → Map_get key m = Some v.
Proof.
  unfold MapData_wf, Map_keys.
  induction m as [|[k w] m IH]; csimpl; [by intros _ ?%elem_of_nil|].
  intros [Hk Hnd]%NoDup_cons [Heq|Hin]%elem_of_cons.
  - injection Heq as -> ->. by rewrite decide_True.
  - destruct (decide (k = key)) as [->|Hne]; [|auto].
    exfalso. apply Hk. apply (list_elem_of_fmap_2 fst) in Hin. done.
Qed.

Lemma Map_keys_set key value m :
  Map_keys (Map_set key value m)
  = if Map_has key m then Map_keys m else Map_keys m ++ [key].
Proof.
  unfold Map_keys. induction m as [|[k v] m IH]; csimpl; [done|].
  destruct (decide (k = key)); csimpl; [done|].
  rewrite IH. by destruct (Map_has key m).
Qed.

Lemma Map_size_set key value m :
  Map_size (Map_set key value m)
  = if Map_has key m then Map_size m else S (Map_size m).
Proof.
  unfold Map_size. induction m as [|[k v] m IH]; csimpl; [done|].
  destruct (decide (k = key)); csimpl; [done|].
  rewrite IH. by destruct (Map_has key m).
Qed.

Lemma Map_keys_delete key m :
  Map_keys (Map_delete key m).2 `sublist_of` Map_keys m.
Proof.
  unfold Map_keys. induction m as [|[k v] m IH]; csimpl; [done|].
  destruct (decide (k = key)); csimpl.
  - by apply sublist_cons.
  - by apply sublist_skip.
Qed.

Lemma filter_absent_key key m :
  key ∉ Map_keys m → filter (λ e, e.1 ≠ key) m = m.
Proof.
  unfold Map_keys. induction m as [|[k v] m IH]; csimpl; [done|].
  intros [Hne Hk]%not_elem_of_cons.
  rewrite filter_cons_True by (csimpl; congruence). by rewrite IH.
Qed.

Lemma Map_delete_filter key m :
  MapData_wf m → (Map_delete key m).2 = filter (λ e, e.1 ≠ key) m.
Proof.
  unfold MapData_wf, Map_keys.
  induction m as [|[k v] m IH]; csimpl; [done|].
  intros [Hk Hnd]%NoDup_cons. destruct (decide (k = key)) as [->|Hne]; csimpl.
  - rewrite filter_cons_False by (csimpl; auto).
    by rewrite filter_absent_key.
  - rewrite filter_cons_True by done. by rewrite IH.
Qed.

Lemma Map_set_wf key value m : MapData_wf m → MapData_wf (Map_set key value m).
Proof.
  unfold MapData_wf. rewrite Map_keys_set.
  destruct (Map_has key m) eqn:Hhas; [done|].
  intros Hnd. apply NoDup_app. split_and!; [done | | apply NoDup_singleton].
  intros k Hk ->%list_elem_of_singleton.
  apply Map_has_keys in Hk. congruence.
Qed.

Lemma Map_delete_wf key m : MapData_wf m → MapData_wf (Map_delete key m).2.
Proof.
  unfold MapData_wf. intros Hnd. eapply sublist_NoDup; [done|].
  apply Map_keys_delete.
Qed.

Lemma Map_apply_wf op m : MapData_wf m → MapData_wf (Map_apply m op).
Proof. destruct op; csimpl; auto using Map_set_wf, Map_delete_wf. Qed.

Lemma Map_run_wf ops m : MapData_wf m → MapData_wf (Map_run ops m).
Proof.
  unfold Map_run. revert m.
  induction ops as [|op ops IH]; csimpl; auto using Map_apply_wf.
Qed.

Lemma Map_get_set_eq key value m : Map_get key (Map_set key value m) = Some value.
Proof.
  induction m as [|[k v] m IH]; csimpl.
  - by rewrite decide_True.
  - destruct (decide (k = key)) as [->|Hne]; csimpl.
    + by rewrite decide_True.
    + by rewrite decide_False.
Qed.

Lemma Map_get_set_ne key key' value m :
  key ≠ key' → Map_get key' (Map_set key value m) = Map_get key' m.
Proof.
  intros Hne. induction m as [|[k v] m IH]; csimpl.
  - by rewrite decide_False.
  - destruct (decide (k = key)) as [->|Hk]; csimpl.
    + by rewrite !decide_False.
    + destruct (decide (k = key')); auto.
Qed.

Lemma Map_get_delete_eq key m :
  MapData_wf m → Map_get key (Map_delete key m).2 = None.
Proof.
  intros Hwf. apply Map_get_None. unfold Map_keys.
  rewrite Map_delete_filter by done.
  intros ([k v] & Hk & [Hne _]%list_elem_of_filter)%list_elem_of_fmap.
  csimpl in *. congruence.
Qed.

Lemma Map_get_delete_ne key key' m :
  key ≠ key' → Map_get key' (Map_delete key m).2 = Map_get key' m.
Proof.
  intros Hne. induction m as [|[k v] m IH]; csimpl; [done|].
  destruct (decide (k = key)) as [->|Hk]; csimpl.
  - by rewrite decide_False.
  - by rewrite IH.
Qed.

Lemma Map_set_same i key value m :
  MapData_wf m → m !! i = Some (key, value) → Map_set key value m = m.
Proof.
  unfold MapData_wf, Map_keys. revert i.
  induction m as [|[k v] m IH]; intros i; csimpl; [done|].
  intros [Hk Hnd]%NoDup_cons. destruct i as [|i]; csimpl.
  - intros [= -> ->]. by rewrite decide_True.
  - intros Hi. destruct (decide (k = key)) as [->|Hne].
    + exfalso. apply Hk. apply list_elem_of_fmap. exists (key, value).
      split; [done|]. by eapply list_elem_of_lookup_2.
    + f_equal. eauto.
Qed.
End MapFacts.

(** ** Size, presence and emptiness of a group *)

Section GroupSize.
Context {K V : Type} `{EqDecision K}.
Implicit Types (g : MapData K V).

Lemma remove_dups_NoDup_id (l : list K) : NoDup l → remove_dups l = l.
Proof.
  induction l as [|x l IH]; csimpl; [done|].
  intros [Hx Hnd]%NoDup_cons.
  destruct (decide_rel elem_of x l); [done | by rewrite IH].
Qed.

Lemma Map_size_distinct g : MapData_wf g → Map_size g = length (remove_dups (Map_keys g)).
Proof.
  intros Hwf. rewrite remove_dups_NoDup_id by done.
  unfold Map_size, Map_keys. by rewrite length_fmap.
Qed.

Lemma Map_size_set_present key value g :
  Map_has key g = true → Map_size (Map_set key value g) = Map_size g.
Proof. intros Hhas. by rewrite Map_size_set, Hhas. Qed.

Lemma Group_empty_size g : Group.empty g = true ↔ Map_size g = 0.
Proof. unfold Group.empty, Group.EMPTY_GROUP_VALUE. apply bool_decide_eq_true. Qed.

(** C1.  Whatever sequence of [set] and [delete] calls a group has gone
    through, its size is the number of distinct keys it holds, the keys it
    holds are those [has] answers true for, a [set] on a key that is present
    does not make it larger, and [empty] is true exactly when the size is 0. *)
Theorem Group_size_counts_distinct_keys g (ops : list (MapOp K V)) :
  MapData_wf g →
  let g' := Map_run ops g in
  Map_size g' = length (remove_dups (Map_keys g'))
  ∧ (∀ key, key ∈ Map_keys g' ↔ Map_has key g' = true)
  ∧ (∀ key value, Map_has key g' = true → Map_size (Map_set key value g') ≤ Map_size g')
  ∧ (Group.empty g' = true ↔ Map_size g' = 0).
Proof.
  intros Hwf g'. assert (MapData_wf g') as Hwf' by by apply Map_run_wf.
  split_and!.
  - by apply Map_size_distinct.
  - intros key. by rewrite Map_has_keys.
  - intros key value Hhas. by rewrite Map_size_set_present.
  - apply Group_empty_size.
Qed.
End GroupSize.

Lemma Group_size_counts_distinct_keys_witness :
  let g : MapData string Z := [("a", 1%Z)] in
  let ops := [OpSet "a" 2%Z; OpSet "b" 3%Z; OpDelete "a"; OpSet "b" 4%Z; OpSet "c" 5%Z] in
  MapData_wf g
  ∧ Map_run ops g = [("b", 4%Z); ("c", 5%Z)]
  ∧ Map_size (Map_run ops g) = length (remove_dups (Map_keys (Map_run ops g))).
Proof.
  intros g ops.
  assert (MapData_wf g) as Hwf by (apply (bool_decide_unpack _); vm_compute; exact I).
  split_and!; [exact Hwf | reflexivity |].
  exact (proj1 (Group_size_counts_distinct_keys g ops Hwf)).
Defined.

(** ** [reduce] and [reduceRight] *)

(** C5.  On a group without entries [reduce] and [reduceRight] throw the
    error of a reduction of an empty array; on values 1, 2, 3 [reduce] with
    addition gives 6; on values "a", "b", "c" [reduceRight] with
    concatenation gives "cba". *)
Theorem Group_reduce_spec {K : Type} :
  (∀ (V : Type) (callbackfn : V → V → nat → list V → V) (g : MapData K V),
      Map_size g = 0 →
      Group.reduce callbackfn g = Throw TypeError_reduce_of_empty_array
      ∧ Group.reduceRight callbackfn g = Throw TypeError_reduce_of_empty_array)
  ∧ (∀ g : MapData K Z,
      Group.toArray g = [1; 2; 3]%Z →
      Group.reduce (λ previousValue currentValue _ _, previousValue + currentValue)%Z g
      = Normal 6%Z)
  ∧ (∀ g : MapData K string,
      Group.toArray g = ["a"; "b"; "c"] →
      Group.reduceRight (λ previousValue currentValue _ _, previousValue +:+ currentValue) g
      = Normal "cba").
Proof.
  split_and!.
  - intros V callbackfn g Hsize. destruct g; [done | discriminate Hsize].
  - intros g Hg. unfold Group.reduce. by rewrite Hg.
  - intros g Hg. unfold Group.reduceRight. by rewrite Hg.
Qed.

Lemma Group_reduce_spec_witness :
  Group.reduce (λ a b _ _, a + b)%Z ([] : MapData string Z)
    = Throw TypeError_reduce_of_empty_array
  ∧ Group.reduceRight (λ a b _ _, a + b)%Z ([] : MapData string Z)
    = Throw TypeError_reduce_of_empty_array
  ∧ Group.reduce (λ a b _ _, a + b)%Z Scenario.one_two_three = Normal 6%Z
  ∧ Group.reduceRight (λ a b _ _, a +:+ b) Scenario.abc = Normal "cba".
Proof.
  destruct (@Group_reduce_spec string) as (Hempty & Hsum & Hcat).
  split_and!.
  - apply (Hempty Z). reflexivity.
  - apply (Hempty Z). reflexivity.
  - apply Hsum. reflexivity.
  - apply Hcat. reflexivity.
Defined.

(** ** The role manager *)

(** C8.  [comparePosition] is the absolute value of the difference of the
    two positions, hence never negative. *)
Theorem comparePosition_abs (role1 role2 : RoleManager.RoleResolvable) :
  RoleManager.comparePosition role1 role2
  = Z.abs (RoleManager.position role1 - RoleManager.position role2)
  ∧ (0 ≤ RoleManager.comparePosition role1 role2)%Z.
Proof.
  unfold RoleManager.comparePosition.
  destruct (Z.gtb_spec (RoleManager.position role1) (RoleManager.position role2)); lia.
Qed.

(** ** The predicates of an interaction *)

Section Predicates.
Context `{Entities} `{Enums}.
Import BasicInteraction.

Lemma strict_eq_true (a : option Z) (b : Z) : strict_eq a b = true ↔ a = Some b.
Proof. apply bool_decide_eq_true. Qed.

(** C10.  [isAnySelectMenu] is the disjunction of the five select-menu
    predicates, and either context-menu predicate implies
    [isAnyContextMenu]. *)
Theorem isAny_predicates (this : BasicInteraction.t) :
  (isAnySelectMenu this = true ↔
     isStringSelectMenu this = true ∨ isChannelSelectMenu this = true
     ∨ isMentionableSelectMenu this = true ∨ isRoleSelectMenu this = true
     ∨ isUserSelectMenu this = true)
  ∧ (isUserContextMenu this = true ∨ isMessageContextMenu this = true →
     isAnyContextMenu this = true).
Proof.
  split.
  - unfold isAnySelectMenu, includes, isStringSelectMenu, isChannelSelectMenu,
      isMentionableSelectMenu, isRoleSelectMenu, isUserSelectMenu.
    rewrite bool_decide_eq_true, !strict_eq_true. csimpl.
    rewrite !elem_of_cons, elem_of_nil. tauto.
  - unfold isUserContextMenu, isMessageContextMenu, isAnyContextMenu.
    intros [[Ht _]%andb_prop | [Ht _]%andb_prop]; exact Ht.
Qed.
End Predicates.

Lemma isAny_predicates_witness :
  @BasicInteraction.isUserContextMenu Scenario.entities Scenario.user_menu_interaction = true
  ∧ @BasicInteraction.isMessageContextMenu Scenario.entities Scenario.user_menu_interaction = false
  ∧ @BasicInteraction.isAnyContextMenu Scenario.entities Scenario.user_menu_interaction = true.
Proof.
  split_and!; [reflexivity | reflexivity |].
  apply (proj2 (@isAny_predicates Scenario.entities Scenario.enums
                  Scenario.user_menu_interaction)).
  left. reflexivity.
Defined.

(** ** [sweep] and [merge] on the store *)

Section StoreFacts.
Context {K V : Type} `{EqDecision K}.
Implicit Types (g A B : MapData K V) (σ : gmap Group.ref (MapData K V)).

Lemma filter_ext_in {X} (P Q : X → Prop) `{!∀ x, Decision (P x), !∀ x, Decision (Q x)}
    (l : list X) :
  (∀ x, x ∈ l → P x ↔ Q x) → filter P l = filter Q l.
Proof.
  induction l as [|x l IH]; intros Hext; [done|].
  rewrite !filter_cons.
  rewrite IH by (intros y Hy; apply Hext; by right).
  apply decide_ext, Hext. by left.
Qed.

Lemma filter_from_pure (P : K * V → bool) (arr rest : list (K * V)) (index : nat) :
  filter_from (λ e _ _, P e) arr index rest = filter (λ e, P e = true) rest.
Proof.
  revert index. induction rest as [|x rest IH]; intros index; csimpl; [done|].
  rewrite filter_cons, IH. destruct (P x); by simplify_eq/=.
Qed.

Lemma wf_same_key g e e' : MapData_wf g → e ∈ g → e' ∈ g → e.1 = e'.1 → e = e'.
Proof.
  destruct e as [k v], e' as [k' v']. csimpl. intros Hwf Hin Hin' <-.
  apply (Map_get_elem _ _ _ Hwf) in Hin, Hin'. congruence.
Qed.

Lemma foldl_delete_filter g (es : list (K * V)) :
  MapData_wf g →
  foldl (λ m e, (Map_delete e.1 m).2) g es = filter (λ e, e.1 ∉ es.*1) g.
Proof.
  revert g. induction es as [|[k v] es IH]; intros g Hwf; csimpl.
  - clear Hwf. induction g as [|x g IHg]; [done|].
    rewrite filter_cons_True by apply not_elem_of_nil. by rewrite <- IHg.
  - rewrite IH by by apply Map_delete_wf.
    rewrite Map_delete_filter by done. rewrite list_filter_filter.
    apply list_filter_iff. intros [k' v']. csimpl. rewrite not_elem_of_cons. tauto.
Qed.

Lemma sweep_kept (P : K * V → bool) g :
  MapData_wf g →
  filter (λ e, e.1 ∉ (filter (λ e, P e = true) g).*1) g = filter (λ e, P e = false) g.
Proof.
  intros Hwf. apply filter_ext_in. intros e He. split.
  - intros Hnot. destruct (P e) eqn:HP; [|done]. exfalso. apply Hnot.
    apply list_elem_of_fmap. exists e. split; [done|]. by apply list_elem_of_filter.
  - intros HP ([k v] & Hk & [HP' Hin]%list_elem_of_filter)%list_elem_of_fmap.
    assert (e = (k, v)) as -> by by apply (wf_same_key g).
    congruence.
Qed.

Lemma Group_set_Some this key value σ g :
  σ !! this = Some g →
  Group.set this key value σ = Some (<[this := Map_set key value g]> σ).
Proof. intros Hthis. unfold Group.set. by rewrite Hthis. Qed.

Lemma Group_delete_Some this key σ g :
  σ !! this = Some g →
  Group.delete this key σ
  = Some ((Map_delete key g).1, <[this := (Map_delete key g).2]> σ).
Proof. intros Hthis. unfold Group.delete. by rewrite Hthis. Qed.

Lemma Array_forEach_delete this σ g (es : list (K * V)) :
  σ !! this = Some g →
  Group.Array_forEach (λ e σ, snd <$> Group.delete this e.1 σ) es σ
  = Some (<[this := foldl (λ m e, (Map_delete e.1 m).2) g es]> σ).
Proof.
  revert σ g. induction es as [|e es IH]; intros σ g Hthis; csimpl.
  - by rewrite insert_id.
  - rewrite (Group_delete_Some _ _ _ g) by done. csimpl.
    erewrite IH by apply lookup_insert_eq. by rewrite insert_insert_eq.
Qed.

Lemma Map_get_foldl_set key A B :
  MapData_wf B →
  Map_get key (foldl (λ m e, Map_set e.1 e.2 m) A B)
  = match Map_get key B with
    | Some v => Some v
    | None => Map_get key A
    end.
Proof.
  unfold MapData_wf, Map_keys. revert A.
  induction B as [|[k v] B IH]; intros A; csimpl; [done|].
  intros [Hk Hnd]%NoDup_cons. rewrite IH by done.
  destruct (decide (k = key)) as [->|Hne].
  - apply Map_get_None in Hk. rewrite Hk. apply Map_get_set_eq.
  - by rewrite Map_get_set_ne.
Qed.

Lemma Map_forEach_set_other fuel this group index σ A B :
  this ≠ group →
  σ !! this = Some A →
  σ !! group = Some B →
  length B - index < fuel →
  Group.Map_forEach_from fuel (λ value key, Group.set this key value) group index σ
  = Some (<[this := foldl (λ m e, Map_set e.1 e.2 m) A (drop index B)]> σ).
Proof.
  intros Hne. revert index σ A.
  induction fuel as [|fuel IH]; intros index σ A Hthis Hgroup Hfuel; [lia|].
  csimpl. rewrite Hgroup. csimpl.
  destruct (B !! index) as [[key value]|] eqn:Hentry.
  - rewrite (Group_set_Some _ _ _ _ A) by done. csimpl.
    apply lookup_lt_Some in Hentry as Hlt.
    rewrite (IH (S index) _ (Map_set key value A));
      [| apply lookup_insert_eq | by rewrite lookup_insert_ne | lia].
    rewrite insert_insert_eq. by rewrite (drop_S B (key, value) index).
  - apply lookup_ge_None in Hentry. rewrite drop_ge by done. csimpl.
    by rewrite insert_id.
Qed.

Lemma Map_forEach_set_self fuel this index σ A :
  MapData_wf A →
  σ !! this = Some A →
  length A - index < fuel →
  Group.Map_forEach_from fuel (λ value key, Group.set this key value) this index σ
  = Some σ.
Proof.
  intros Hwf Hthis. revert index.
  induction fuel as [|fuel IH]; intros index Hfuel; [lia|].
  csimpl. rewrite Hthis. csimpl.
  destruct (A !! index) as [[key value]|] eqn:Hentry; [|done].
  rewrite (Group_set_Some _ _ _ _ A) by done. csimpl.
  rewrite (Map_set_same index) by done. rewrite insert_id by done.
  apply lookup_lt_Some in Hentry. apply IH. lia.
Qed.
(** The callback of [filter] sees every element once, with its index in
    the array that was handed to [filter]. *)
Lemma filter_from_indexed {X} (predicate : X → nat → list X → bool) (arr rest : list X)
    (index : nat) :
  filter_from predicate arr index rest
  = (filter (λ ie, predicate ie.2 ie.1 arr = true)
       (imap (λ j x, (index + j, x)) rest)).*2.
Proof.
  revert index. induction rest as [|x rest IH]; intros index; [done|].
  rewrite imap_cons, filter_cons. cbn [filter_from fst snd].
  rewrite Nat.add_0_r, IH.
  rewrite (imap_ext (λ j y, (S index + j, y)) ((λ j y, (index + j, y)) ∘ S))
    by (intros; cbn; f_equal; lia).
  destruct (predicate x index arr); by simplify_eq/=.
Qed.

Lemma elem_of_Array_filter {X} (predicate : X → nat → list X → bool) (arr : list X) x :
  x ∈ Array_filter predicate arr
  ↔ ∃ i, arr !! i = Some x ∧ predicate x i arr = true.
Proof.
  unfold Array_filter. rewrite filter_from_indexed, list_elem_of_fmap. split.
  - intros ([i y] & -> & [Hp (j & z & [= -> ->] & Hj)%elem_of_lookup_imap]%list_elem_of_filter).
    csimpl in *. eauto.
  - intros (i & Hi & Hp). exists (i, x). split; [done|].
    apply list_elem_of_filter. split; [done|].
    apply elem_of_lookup_imap. eauto.
Qed.

Lemma filter_imap {X} (Q : X → Prop) (Q' : nat * X → Prop)
    `{!∀ x, Decision (Q x), !∀ ix, Decision (Q' ix)} (l : list X) (k : nat) :
  (∀ i x, l !! i = Some x → Q x ↔ Q' (k + i, x)) →
  filter Q l = (filter Q' (imap (λ j x, (k + j, x)) l)).*2.
Proof.
  revert k. induction l as [|x l IH]; intros k Hext; [done|].
  rewrite imap_cons, !filter_cons. cbn [fst snd].
  rewrite (imap_ext ((λ j y, (k + j, y)) ∘ S) (λ j y, (S k + j, y)))
    by (intros; cbn; f_equal; lia).
  assert (filter Q l = (filter Q' (imap (λ j y, (S k + j, y)) l)).*2) as Htail.
  { apply IH. intros i y Hi. rewrite (Hext (S i) y Hi).
    by replace (k + S i) with (S k + i) by lia. }
  pose proof (Hext 0 x eq_refl) as Hhead.
  destruct (decide (Q x)), (decide (Q' (k + 0, x))); csimpl;
    try tauto; by rewrite Htail.
Qed.

Lemma wf_same_index g i j e e' :
  MapData_wf g → g !! i = Some e → g !! j = Some e' → e.1 = e'.1 → i = j ∧ e = e'.
Proof.
  intros Hwf Hi Hj Hk.
  assert (e = e') as <-
    by (apply (wf_same_key g); eauto using list_elem_of_lookup_2).
  split; [|done]. eapply NoDup_lookup; [|done..]. by eapply NoDup_fmap_1.
Qed.

Lemma sweep_kept_indexed (predicate : K * V → nat → list (K * V) → bool) g :
  MapData_wf g →
  filter (λ e, e.1 ∉ (Array_filter predicate g).*1) g
  = (filter (λ ie, predicate ie.2 ie.1 g = false) (imap pair g)).*2.
Proof.
  intros Hwf. apply (filter_imap _ _ g 0). intros i e Hi. csimpl. split.
  - intros Hnot. destruct (predicate e i g) eqn:Hp; [|done]. exfalso. apply Hnot.
    apply list_elem_of_fmap. exists e. split; [done|]. apply elem_of_Array_filter. eauto.
  - intros Hp ([k v] & Hk & (j & Hj & Hp')%elem_of_Array_filter)%list_elem_of_fmap.
    destruct (wf_same_index g i j e (k, v)) as [-> ->]; [done..|]. congruence.
Qed.
End StoreFacts.

Section StoreMethods.
Context {K V : Type} `{EqDecision K}.
Implicit Types (g A B : MapData K V) (σ : gmap Group.ref (MapData K V)).

(** [sweep] with a callback that also looks at the index and the array:
    the callback is asked about every entry once, with the position the
    entry had and the entries the group had when [sweep] was called, and the
    entries it rejects are the ones that stay. *)
Lemma Group_sweep_indexed (predicate : K * V → nat → list (K * V) → bool)
    (this : Group.ref) σ g :
  σ !! this = Some g →
  MapData_wf g →
  Group.sweep predicate this σ
  = Some (this,
          <[this := (filter (λ ie, predicate ie.2 ie.1 g = false) (imap pair g)).*2]> σ).
Proof.
  intros Hthis Hwf. unfold Group.sweep. rewrite Hthis. csimpl. unfold Map_entries.
  rewrite (Array_forEach_delete this σ g) by done. csimpl.
  by rewrite foldl_delete_filter, sweep_kept_indexed.
Qed.

(** C2.  [sweep] with a predicate on entries leaves in the receiver the
    entries that fail the predicate, in their original order, and nothing
    else; the other objects of the store are untouched and the reference
    returned is the receiver. *)
Theorem Group_sweep_spec (P : K * V → bool) (this : Group.ref) σ g :
  σ !! this = Some g →
  MapData_wf g →
  ∃ g', Group.sweep (λ e _ _, P e) this σ = Some (this, <[this := g']> σ)
        ∧ g' = filter (λ e, P e = false) g
        ∧ (∀ e, e ∈ g' ↔ e ∈ g ∧ P e = false)
        ∧ g' `sublist_of` g.
Proof.
  intros Hthis Hwf. exists (filter (λ e, P e = false) g). split_and!.
  - unfold Group.sweep. rewrite Hthis. csimpl. unfold Array_filter, Map_entries.
    rewrite filter_from_pure, (Array_forEach_delete this σ g) by done. csimpl.
    by rewrite foldl_delete_filter, sweep_kept.
  - done.
  - intros e. rewrite list_elem_of_filter. tauto.
  - apply sublist_filter.
Qed.

(** C4.  [merge] gives the receiver the value of the other group at every
    key of the other group, leaves the values at all other keys as they
    were, leaves the other group as it was, and returns the receiver.  The
    two references may be the same. *)
Theorem Group_merge_spec (fuel : nat) (this group : Group.ref) σ A B :
  σ !! this = Some A →
  σ !! group = Some B →
  MapData_wf B →
  length B < fuel →
  ∃ A', Group.merge fuel this group σ = Some (this, <[this := A']> σ)
        ∧ (∀ key, Map_has key B = true → Map_get key A' = Map_get key B)
        ∧ (∀ key, Map_has key B = false → Map_get key A' = Map_get key A)
        ∧ <[this := A']> σ !! group = Some B.
Proof.
  intros Hthis Hgroup Hwf Hfuel. unfold Group.merge, Group.Map_forEach.
  destruct (decide (this = group)) as [->|Hne].
  - assert (A = B) as -> by congruence. exists B.
    rewrite (Map_forEach_set_self fuel group 0 σ B) by (done || lia). csimpl.
    rewrite insert_id by done. done.
  - exists (foldl (λ m e, Map_set e.1 e.2 m) A B).
    rewrite (Map_forEach_set_other fuel this group 0 σ A B) by (done || lia).
    rewrite drop_0. csimpl. split_and!.
    + done.
    + intros key [v Hv]%Map_has_is_Some. by rewrite Map_get_foldl_set, Hv.
    + intros key Hhas. rewrite Map_get_foldl_set by done.
      destruct (Map_get key B) eqn:Hget; [|done].
      assert (Map_has key B = true) by (apply Map_has_is_Some; eauto). congruence.
    + by rewrite lookup_insert_ne.
Qed.
End StoreMethods.

Lemma Group_sweep_spec_witness :
  let g : MapData string Z := [("a", 1); ("b", 2); ("c", 3); ("d", 4)]%Z in
  let σ : gmap Group.ref (MapData string Z) := {[ 0 := g ]} in
  ∃ g', Group.sweep (λ e _ _, Z.even e.2) 0 σ = Some (0, <[0 := g']> σ)
        ∧ g' = [("a", 1); ("c", 3)]%Z.
Proof.
  intros g σ.
  destruct (Group_sweep_spec (λ e, Z.even e.2) 0 σ g) as (g' & Hsweep & Hg' & _).
  - reflexivity.
  - apply (bool_decide_unpack _). vm_compute. exact I.
  - exists g'. split; [exact Hsweep|]. rewrite Hg'. reflexivity.
Defined.

Lemma Group_merge_spec_witness :
  let A : MapData string Z := [("a", 1); ("b", 2)]%Z in
  let B : MapData string Z := [("c", 30); ("a", 10)]%Z in
  let σ : gmap Group.ref (MapData string Z) := {[ 0 := A; 1 := B ]} in
  Group.merge 3 0 1 σ = Some (0, <[0 := [("a", 10); ("b", 2); ("c", 30)]%Z]> σ)
  ∧ ∃ A', Group.merge 3 0 1 σ = Some (0, <[0 := A']> σ)
          ∧ Map_get "a" A' = Some 10%Z.
Proof.
  intros A B σ. split; [reflexivity|].
  destruct (Group_merge_spec 3 0 1 σ A B) as (A' & Hmerge & HB & _).
  - reflexivity.
  - reflexivity.
  - apply (bool_decide_unpack _). vm_compute. exact I.
  - simpl. lia.
  - exists A'. split; [exact Hmerge|]. apply (HB "a"). reflexivity.
Defined.

(** ** [first] and [last] *)

Section Slices.
Context {A : Type}.
Implicit Types (arr : list A).

Lemma Array_slice_prefix arr (n : Z) :
  (0 ≤ n)%Z → Array_slice arr 0 (Some n) = take (Z.to_nat n `min` length arr) arr.
Proof.
  intros Hn. unfold Array_slice, relative_index. csimpl.
  rewrite (proj2 (Z.ltb_ge n 0)) by done.
  replace (Z.to_nat (0 `min` Z.of_nat (length arr))) with 0 by lia.
  rewrite drop_0. f_equal. lia.
Qed.

Lemma Array_slice_suffix arr (n : Z) :
  (0 < n)%Z → Array_slice arr (- n) None = drop (length arr - Z.to_nat n) arr.
Proof.
  intros Hn. unfold Array_slice, relative_index.
  rewrite (proj2 (Z.ltb_lt (- n) 0)) by lia.
  rewrite take_ge by (rewrite length_drop; lia).
  f_equal. lia.
Qed.

Lemma Array_slice_minus_zero arr : Array_slice arr (- 0) None = arr.
Proof.
  change (- 0)%Z with 0%Z. unfold Array_slice, relative_index.
  change (0 <? 0)%Z with false. cbv iota.
  rewrite Z.min_l by lia. change (Z.to_nat 0) with 0.
  rewrite drop_0. apply take_ge. lia.
Qed.
End Slices.

Section FirstLast.
Context {K V : Type} (ToPropertyKey : K → string).
Implicit Types (g : MapData K V).

(** With an amount that is not negative, [first] builds the object of the
    first [min amount size] entries. *)
Lemma Group_first_amount g (n : Z) :
  (0 ≤ n)%Z →
  Group.first ToPropertyKey (Some n) g
  = Group.PickedObject
      (Group.fromEntries ToPropertyKey (take (Z.to_nat n `min` Map_size g) g)).
Proof. intros Hn. unfold Group.first, Map_entries. by rewrite Array_slice_prefix. Qed.

(** With a positive amount, [last] builds the object of the last
    [min amount size] entries. *)
Lemma Group_last_amount g (n : Z) :
  (0 < n)%Z →
  Group.last ToPropertyKey (Some n) g
  = Group.PickedObject
      (Group.fromEntries ToPropertyKey (drop (Map_size g - Z.to_nat n) g)).
Proof. intros Hn. unfold Group.last, Map_entries. by rewrite Array_slice_suffix. Qed.

(** With the amount 0, [last] builds the object of all entries. *)
Lemma Group_last_zero g :
  Group.last ToPropertyKey (Some 0%Z) g
  = Group.PickedObject (Group.fromEntries ToPropertyKey g).
Proof. unfold Group.last, Map_entries. by rewrite Array_slice_minus_zero. Qed.

(** Without an amount, both methods yield the first entry, if there is one. *)
Lemma Group_first_last_omitted g :
  Group.first ToPropertyKey None g = Group.PickedEntry (head g)
  ∧ Group.last ToPropertyKey None g = Group.PickedEntry (head g).
Proof. by destruct g. Qed.
End FirstLast.

(** C3.  On the group [("1","a"), ("2","b"), ("3","c")], [last] without
    an amount yields the first entry, [first] without an amount yields the
    first entry (the pair, not its value), and [last(0)] yields the object of
    all three entries. *)
Theorem Group_first_last_on_abc :
  Group.last id None Scenario.abc = Group.PickedEntry (Some ("1", "a"))
  ∧ Group.first id None Scenario.abc = Group.PickedEntry (Some ("1", "a"))
  ∧ Group.last id (Some 0%Z) Scenario.abc
    = Group.PickedObject [("1", "a"); ("2", "b"); ("3", "c")].
Proof. split_and!; reflexivity. Qed.

(** ** Editing and deleting roles *)

Section RoleManagerFacts.
Context `{RoleManager.Remote}.
Import RoleManager.

(** C9.  When the identifier of the role is not a key of the cache, [edit]
    throws on the missing entry: no role is built or edited, no request is
    sent, and the manager is left as it was.  That is the case, in
    particular, after a [delete] of that identifier has succeeded. *)
Theorem edit_uncached_fails (role : RoleResolvable) (options : EditRoleOptions)
    (this : State) (w : World) :
  (Map_get (id role) (cache this) = None →
   edit role options this w = (Throw (TypeError_property_of_undefined "edit"), this, w))
  ∧ (∀ reason this' w',
       MapData_wf (cache this) →
       delete role reason this w = (Normal tt, this', w') →
       Map_has (id role) (cache this') = false
       ∧ edit role options this' w'
         = (Throw (TypeError_property_of_undefined "edit"), this', w')).
Proof.
  assert (∀ s w0, Map_get (id role) (cache s) = None →
            edit role options s w0
            = (Throw (TypeError_property_of_undefined "edit"), s, w0)) as Hedit.
  { intros s w0 Hget. unfold edit. by rewrite Hget. }
  split; [apply Hedit|].
  intros reason this' w' Hwf. unfold delete.
  destruct (api_delete_GuildRole _ _ _ _) as [[[]|e] w'']; intros [= <- <-].
  assert (Map_get (id role) (Map_delete (id role) (cache this)).2 = None) as Hgone
    by by apply Map_get_delete_eq.
  split; [|by apply Hedit].
  destruct (Map_has _ _) eqn:Hhas; [|done].
  apply Map_has_is_Some in Hhas as [? Hsome]. csimpl in *. congruence.
Qed.
End RoleManagerFacts.

Lemma edit_uncached_fails_witness :
  let deleted := @RoleManager.delete Scenario.remote Scenario.role_42 None Scenario.manager tt in
  deleted = (Normal tt, {| RoleManager.guild_id := "5"; RoleManager.cache := [] |}, tt)
  ∧ @RoleManager.edit Scenario.remote Scenario.role_42 "Mod" deleted.1.2 tt
    = (Throw (TypeError_property_of_undefined "edit"), deleted.1.2, tt).
Proof.
  intros deleted. split; [reflexivity|].
  refine (proj2 (proj2 (@edit_uncached_fails Scenario.remote Scenario.role_42 "Mod"
                          Scenario.manager tt) None deleted.1.2 tt _ _)).
  - apply (bool_decide_unpack _). vm_compute. exact I.
  - reflexivity.
Defined.

(** ** The constructor of an interaction *)

Section Constructor.
Context `{Entities}.
Import BasicInteraction.

(** C6.  The constructor completes on every payload.  The guild, member,
    user and message fields of the interaction it builds hold the raw
    sub-payload whenever the payload has one: the entity built from it is
    overwritten by the final [Object.assign].  Where the payload has none,
    the guild field holds the guild built from the missing payload and the
    other three fields are undefined. *)
Theorem constructor_sub_entities (data : RawInteractionData.t) (c : Client) :
  ∃ this, constructor data c = Normal this
    ∧ guild this = match RawInteractionData.guild data with
                   | Some raw => RawValue raw
                   | None => Built (new_Guild None c)
                   end
    ∧ member this = match RawInteractionData.member data with
                    | Some raw => RawValue raw
                    | None => Undefined
                    end
    ∧ user this = match RawInteractionData.user data with
                  | Some raw => RawValue raw
                  | None => Undefined
                  end
    ∧ message this = match RawInteractionData.message data with
                     | Some raw => RawValue raw
                     | None => Undefined
                     end.
Proof.
  eexists. split; [reflexivity|]. csimpl. unfold assign_slot.
  split_and!; by repeat case_match; simplify_eq.
Qed.

(** C7 as amended.  The constructor validates nothing: on every payload it
    completes normally, and the identifier and the primary type of the
    interaction are those of the payload, missing when the payload lacks
    them. *)
Theorem constructor_copies_id_and_type (data : RawInteractionData.t) (c : Client) :
  ∃ this, constructor data c = Normal this
    ∧ id this = RawInteractionData.id data
    ∧ type this = RawInteractionData.type data.
Proof.
  eexists. split; [reflexivity|]. csimpl. unfold assign_scalar.
  split; by case_match.
Qed.
End Constructor.

(** The member of the payload ends up in the interaction as it came. *)
Example constructor_keeps_raw_member :
  ∃ this, @BasicInteraction.constructor Scenario.entities Scenario.untyped_payload []
          = Normal this
    ∧ BasicInteraction.member this = BasicInteraction.RawValue "8"
    ∧ BasicInteraction.guild this = BasicInteraction.RawValue "5".
Proof. eexists. split_and!; reflexivity. Qed.

(** C7 as stated fails: a payload without identifier and primary type is
    not rejected. *)
Lemma constructor_does_not_reject_malformed :
  ¬ (∀ (data : @RawInteractionData.t Scenario.entities) (c : list string),
       RawInteractionData.id data = None ∨ RawInteractionData.type data = None →
       ∃ e, @BasicInteraction.constructor Scenario.entities data c = Throw e).
Proof.
  intros Hclaim.
  destruct (Hclaim Scenario.untyped_payload []) as [e He]; [by left|].
  discriminate He.
Qed.

(* ===================================================================== *)
(** * Part III: the rest of the container, the manager and the classifier *)
(* ===================================================================== *)

(** ** The searches of an array *)

Section SearchFacts.
Context {X : Type}.
Implicit Types (predicate : X → nat → list X → bool) (arr rest : list X).

Lemma find_from_Some predicate arr k rest x :
  find_from predicate arr k rest = Some x
  ↔ ∃ i, rest !! i = Some x ∧ predicate x (k + i) arr = true
         ∧ ∀ j y, j < i → rest !! j = Some y → predicate y (k + j) arr = false.
Proof.
  revert k. induction rest as [|z rest IH]; intros k; csimpl.
  - split; [done | by intros (i & ? & _)].
  - destruct (predicate z k arr) eqn:Hz.
    + split.
      * intros [= ->]. exists 0. rewrite Nat.add_0_r. split_and!; [done..|]. lia.
      * intros ([|i] & Hi & Hp & Hbefore); [by simplify_eq/=|].
        specialize (Hbefore 0 z ltac:(lia) eq_refl). rewrite Nat.add_0_r in Hbefore.
        congruence.
    + rewrite IH. split.
      * intros (i & Hi & Hp & Hbefore). exists (S i).
        replace (k + S i) with (S k + i) by lia. split_and!; [done..|].
        intros [|j] y Hj Hy; csimpl in Hy.
        -- rewrite Nat.add_0_r. congruence.
        -- replace (k + S j) with (S k + j) by lia. apply Hbefore; [lia|done].
      * intros ([|i] & Hi & Hp & Hbefore); csimpl in Hi.
        -- rewrite Nat.add_0_r in Hp. congruence.
        -- exists i. replace (S k + i) with (k + S i) by lia. split_and!; [done..|].
           intros j y Hj Hy. replace (S k + j) with (k + S j) by lia.
           apply Hbefore; [lia|done].
Qed.

Lemma find_from_None predicate arr k rest :
  find_from predicate arr k rest = None
  ↔ ∀ i y, rest !! i = Some y → predicate y (k + i) arr = false.
Proof.
  revert k. induction rest as [|z rest IH]; intros k; csimpl.
  - split; [by intros _ i y ? | done].
  - destruct (predicate z k arr) eqn:Hz.
    + split; [done|]. intros Hall. specialize (Hall 0 z eq_refl).
      rewrite Nat.add_0_r in Hall. congruence.
    + rewrite IH. split.
      * intros Hall [|i] y Hy; csimpl in Hy.
        -- rewrite Nat.add_0_r. congruence.
        -- replace (k + S i) with (S k + i) by lia. by apply Hall.
      * intros Hall i y Hy. replace (S k + i) with (k + S i) by lia. by apply Hall.
Qed.

Lemma findIndex_from_find predicate arr k rest :
  match find_from predicate arr k rest with
  | Some x => ∃ i, findIndex_from predicate arr k rest = Z.of_nat (k + i)
                   ∧ rest !! i = Some x
  | None => findIndex_from predicate arr k rest = (-1)%Z
  end.
Proof.
  revert k. induction rest as [|z rest IH]; intros k; csimpl; [done|].
  destruct (predicate z k arr).
  - exists 0. by rewrite Nat.add_0_r.
  - specialize (IH (S k)). destruct (find_from predicate arr (S k) rest); [|done].
    destruct IH as (i & Hi & Hx). exists (S i).
    by replace (k + S i) with (S k + i) by lia.
Qed.

Lemma some_from_find predicate arr k rest :
  some_from predicate arr k rest = true ↔ is_Some (find_from predicate arr k rest).
Proof.
  revert k. induction rest as [|z rest IH]; intros k; csimpl.
  - split; [done | by intros [? ?]].
  - destruct (predicate z k arr); [by split; eauto | apply IH].
Qed.

Lemma every_from_some predicate arr k rest :
  every_from predicate arr k rest
  = negb (some_from (λ x i a, negb (predicate x i a)) arr k rest).
Proof.
  revert k. induction rest as [|z rest IH]; intros k; csimpl; [done|].
  destruct (predicate z k arr); csimpl; [apply IH | done].
Qed.

Lemma every_from_filter predicate arr k rest :
  every_from predicate arr k rest = true ↔ filter_from predicate arr k rest = rest.
Proof.
  revert k. induction rest as [|z rest IH]; intros k; csimpl; [done|].
  destruct (predicate z k arr).
  - rewrite IH. split; [by intros -> | by intros [= ->]].
  - split; [done|]. intros Heq.
    assert (length (filter_from predicate arr (S k) rest) ≤ length rest) as Hle.
    { rewrite filter_from_indexed, length_fmap.
      etrans; [apply length_filter|]. by rewrite length_imap. }
    rewrite Heq in Hle. csimpl in Hle. lia.
Qed.

Lemma some_from_filter predicate arr k rest :
  some_from predicate arr k rest = false ↔ filter_from predicate arr k rest = [].
Proof.
  revert k. induction rest as [|z rest IH]; intros k; csimpl; [done|].
  destruct (predicate z k arr); [done | apply IH].
Qed.

Lemma every_from_pure (P : X → bool) arr k rest :
  every_from (λ x _ _, P x) arr k rest = true ↔ ∀ x, x ∈ rest → P x = true.
Proof.
  revert k. induction rest as [|z rest IH]; intros k; csimpl.
  - split; [by intros _ x ?%elem_of_nil | done].
  - destruct (P z) eqn:Hz.
    + rewrite IH. split.
      * intros Hall x [->|Hx]%elem_of_cons; auto.
      * intros Hall x Hx. apply Hall. by right.
    + split; [done|]. intros Hall. rewrite Hall in Hz by left. done.
Qed.

Lemma some_from_pure (P : X → bool) arr k rest :
  some_from (λ x _ _, P x) arr k rest = true ↔ ∃ x, x ∈ rest ∧ P x = true.
Proof.
  revert k. induction rest as [|z rest IH]; intros k; csimpl.
  - split; [done | by intros (x & ?%elem_of_nil & _)].
  - destruct (P z) eqn:Hz.
    + split; [|done]. intros _. exists z. split; [left | done].
    + rewrite IH. split.
      * intros (x & Hx & HP). exists x. split; [by right | done].
      * intros (x & [->|Hx]%elem_of_cons & HP); [congruence | eauto].
Qed.
End SearchFacts.

(** ** The queries of a group *)

Section QueryFacts.
Context {K V : Type} `{EqDecision K}.
Implicit Types (g : MapData K V) (func predicate : V → nat → list V → bool).

Lemma toArray_lookup g i v :
  Group.toArray g !! i = Some v ↔ ∃ key, g !! i = Some (key, v).
Proof.
  unfold Group.toArray, Map_values. rewrite list_lookup_fmap, fmap_Some. split.
  - intros ([key w] & Hi & ->). eauto.
  - intros (key & Hi). by exists (key, v).
Qed.

(** X1.  [find] yields the first value, in insertion order, that the
    callback accepts when it is handed the value, its position and the
    array of values; it yields nothing exactly when no value is accepted. *)
Theorem Group_find_first_match func g :
  (∀ v, Group.find func g = Some v
        ↔ ∃ i, Group.toArray g !! i = Some v
               ∧ func v i (Group.toArray g) = true
               ∧ ∀ j w, j < i → Group.toArray g !! j = Some w
                         → func w j (Group.toArray g) = false)
  ∧ (Group.find func g = None
     ↔ ∀ i w, Group.toArray g !! i = Some w → func w i (Group.toArray g) = false).
Proof.
  unfold Group.find, Array_find. split.
  - intros v. apply (find_from_Some func _ 0).
  - apply (find_from_None func _ 0).
Qed.

(** X2.  [findKey] yields the key under which the value found by [find] is
    stored, and yields nothing exactly when [find] does. *)
Theorem Group_findKey_find predicate g :
  MapData_wf g →
  (∀ key, Group.findKey predicate g = Some key
          → ∃ v, Group.find predicate g = Some v ∧ Map_get key g = Some v)
  ∧ (Group.findKey predicate g = None ↔ Group.find predicate g = None).
Proof.
  intros Hwf. unfold Group.findKey, Group.find, Array_find, Array_findIndex.
  pose proof (findIndex_from_find predicate (Group.toArray g) 0 (Group.toArray g)) as Hidx.
  destruct (find_from predicate (Group.toArray g) 0 (Group.toArray g)) as [v|].
  - destruct Hidx as (i & -> & (key & Hi)%toArray_lookup).
    assert (Array_index (Map_keys g) (Z.of_nat (0 + i)) = Some key) as ->.
    { unfold Array_index, Map_keys. rewrite (proj2 (Z.ltb_ge _ 0)) by lia.
      rewrite Nat2Z.id, list_lookup_fmap. csimpl. by rewrite Hi. }
    split; [|done]. intros ? [= <-]. exists v. split; [done|].
    apply Map_get_elem; [done|]. by eapply list_elem_of_lookup_2.
  - rewrite Hidx. done.
Qed.

(** X3.  [some] holds exactly when [find] finds a value; [every] is the
    negation of [some] for the negated callback; [every] holds exactly when
    [filter] keeps all values and [some] fails exactly when [filter] keeps
    none; on a group without entries [every] is true and [some] is false. *)
Theorem Group_some_every_filter func g :
  (Group.some func g = true ↔ is_Some (Group.find func g))
  ∧ Group.every func g = negb (Group.some (λ v i a, negb (func v i a)) g)
  ∧ (Group.every func g = true ↔ Group.filter func g = Group.toArray g)
  ∧ (Group.some func g = false ↔ Group.filter func g = [])
  ∧ Group.every func ([] : MapData K V) = true
  ∧ Group.some func ([] : MapData K V) = false.
Proof.
  unfold Group.some, Group.every, Group.find, Group.filter.
  unfold Array_some, Array_every, Array_find, Array_filter. split_and!.
  - apply some_from_find.
  - apply every_from_some.
  - apply every_from_filter.
  - apply some_from_filter.
  - done.
  - done.
Qed.

(** X4.  [at] with an index from 0 to size - 1 yields the value at that
    position, and the index lowered by the size names the same value; an
    index of at least the size, or below minus the size, yields nothing. *)
Theorem Group_at_bounds g (index : Z) :
  let size := Z.of_nat (Map_size g) in
  ((0 ≤ index < size)%Z →
     Group.at_ index g = Group.toArray g !! Z.to_nat index
     ∧ Group.at_ (index - size) g = Group.at_ index g
     ∧ is_Some (Group.at_ index g))
  ∧ ((size ≤ index ∨ index < - size)%Z → Group.at_ index g = None).
Proof.
  intros size. unfold Group.at_, Array_at, Group.toArray, Map_values.
  rewrite length_fmap. fold (Map_size g). fold size. split.
  - intros [Hlo Hhi].
    rewrite (proj2 (Z.leb_le 0 index)) by done.
    rewrite (proj2 (Z.ltb_ge index 0)) by done.
    rewrite (proj2 (Z.leb_gt size index)) by done. csimpl.
    rewrite (proj2 (Z.leb_gt 0 (index - size))) by lia.
    replace (size + (index - size))%Z with index by lia.
    rewrite (proj2 (Z.ltb_ge index 0)) by done.
    rewrite (proj2 (Z.leb_gt size index)) by done. csimpl.
    split_and!; [done..|]. apply lookup_lt_is_Some.
    rewrite length_fmap. unfold size, Map_size in Hhi. lia.
  - intros [Hhi|Hlo].
    + rewrite (proj2 (Z.leb_le 0 index)) by lia.
      rewrite (proj2 (Z.leb_le size index)) by done. by rewrite orb_true_r.
    + rewrite (proj2 (Z.leb_gt 0 index)) by lia.
      by rewrite (proj2 (Z.ltb_lt (size + index) 0)) by lia.
Qed.

(** X5.  The i-th value of [reverse] is the value [at] yields for the
    index -(i + 1): [reverse] lists the values from the last to the first. *)
Theorem Group_reverse_at g (i : nat) :
  Group.reverse g !! i = Group.at_ (- Z.of_nat i - 1) g.
Proof.
  unfold Group.reverse, Array_reverse, Group.at_, Array_at.
  set (arr := Group.toArray g).
  rewrite (proj2 (Z.leb_gt 0 (- Z.of_nat i - 1))) by lia.
  destruct (decide (i < length arr)) as [Hlt|Hge].
  - rewrite reverse_lookup by done.
    rewrite (proj2 (Z.ltb_ge _ 0)) by lia.
    rewrite (proj2 (Z.leb_gt _ _)) by lia. csimpl. f_equal. lia.
  - rewrite (proj2 (Z.ltb_lt _ 0)) by lia. csimpl.
    apply lookup_ge_None. rewrite length_reverse. lia.
Qed.

(** X6.  [hasAll] holds exactly when every given key is present and
    [hasAny] exactly when one of them is; so with no keys given [hasAll] is
    true and [hasAny] false, and a group has all of its own keys. *)
Theorem Group_hasAll_hasAny (keys : list K) g :
  (Group.hasAll keys g = true ↔ ∀ key, key ∈ keys → Map_has key g = true)
  ∧ (Group.hasAny keys g = true ↔ ∃ key, key ∈ keys ∧ Map_has key g = true)
  ∧ Group.hasAll [] g = true
  ∧ Group.hasAny [] g = false
  ∧ Group.hasAll (Map_keys g) g = true.
Proof.
  unfold Group.hasAll, Group.hasAny, Array_every, Array_some. split_and!.
  - apply (every_from_pure (λ key, Map_has key g)).
  - apply (some_from_pure (λ key, Map_has key g)).
  - done.
  - done.
  - apply (every_from_pure (λ key, Map_has key g)). intros key. apply Map_has_keys.
Qed.

(** X7.  [map] and [mapValues] yield one result per entry, in insertion
    order, the i-th being the callback applied to the i-th entry (or value)
    and to i; for a callback that only looks at the value, mapping the
    entries is mapping the values. *)
Theorem Group_map_mapValues {U} (func : K * V → nat → list (K * V) → U)
    (callbackfn : V → nat → list V → U) (f : V → U) g (i : nat) :
  Group.map func g !! i = (λ e, func e i g) <$> g !! i
  ∧ Group.mapValues callbackfn g !! i
    = (λ v, callbackfn v i (Group.toArray g)) <$> Group.toArray g !! i
  ∧ length (Group.map func g) = Map_size g
  ∧ length (Group.mapValues callbackfn g) = Map_size g
  ∧ Group.map (λ e _ _, f e.2) g = Group.mapValues (λ v _ _, f v) g.
Proof.
  unfold Group.map, Group.mapValues, Array_map, Map_entries, Group.toArray, Map_values.
  split_and!.
  - apply list_lookup_imap.
  - apply list_lookup_imap.
  - apply length_imap.
  - by rewrite length_imap, length_fmap.
  - by rewrite imap_fmap.
Qed.
End QueryFacts.

Lemma Group_findKey_find_witness :
  let g : MapData string Z := [("a", 1); ("b", 4); ("c", 6)]%Z in
  Group.findKey (λ v _ _, Z.even v) g = Some "b"
  ∧ ∃ v, Group.find (λ v _ _, Z.even v) g = Some v ∧ Map_get "b" g = Some v.
Proof.
  intros g. split; [reflexivity|].
  refine (proj1 (Group_findKey_find (λ v _ _, Z.even v) g _) "b" _).
  - apply (bool_decide_unpack _). vm_compute. exact I.
  - reflexivity.
Defined.

Lemma Group_at_bounds_witness :
  Group.at_ 1 Scenario.abc = Some "b"
  ∧ Group.at_ (1 - 3) Scenario.abc = Group.at_ 1 Scenario.abc
  ∧ Group.at_ 3 Scenario.abc = None.
Proof.
  destruct (Group_at_bounds Scenario.abc 1) as [Hin _].
  destruct (Group_at_bounds Scenario.abc 3) as [_ Hout].
  destruct Hin as (H1 & H2 & _); [simpl; lia|].
  split_and!.
  - rewrite H1. reflexivity.
  - exact H2.
  - apply Hout. simpl. lia.
Defined.

(** ** Setting and deleting, and the order of the entries *)

Section OrderFacts.
Context {K V : Type} `{EqDecision K}.
Implicit Types (g A B : MapData K V) (key : K) (value : V).

Lemma Map_set_absent key value g :
  key ∉ Map_keys g → Map_set key value g = g ++ [(key, value)].
Proof.
  unfold Map_keys. induction g as [|[k v] g IH]; csimpl; [done|].
  intros [Hne Hk]%not_elem_of_cons. rewrite decide_False by done. by rewrite IH.
Qed.

Lemma Map_set_get_same key value g :
  Map_get key g = Some value → Map_set key value g = g.
Proof.
  induction g as [|[k v] g IH]; csimpl; [done|].
  destruct (decide (k = key)) as [->|Hne]; [by intros [= ->] | intros Hg; by rewrite IH].
Qed.

Lemma Map_delete_absent key g : key ∉ Map_keys g → Map_delete key g = (false, g).
Proof.
  unfold Map_keys. induction g as [|[k v] g IH]; csimpl; [done|].
  intros [Hne Hk]%not_elem_of_cons. rewrite decide_False by done. by rewrite IH.
Qed.

Lemma Map_delete_has key g : (Map_delete key g).1 = Map_has key g.
Proof.
  induction g as [|[k v] g IH]; csimpl; [done|].
  by destruct (decide (k = key)).
Qed.

Lemma Map_delete_set key value g :
  (Map_delete key (Map_set key value g)).2 = (Map_delete key g).2.
Proof.
  induction g as [|[k v] g IH]; csimpl.
  - by rewrite decide_True.
  - destruct (decide (k = key)) as [->|Hne]; csimpl.
    + by rewrite decide_True.
    + rewrite decide_False by done. csimpl. by rewrite IH.
Qed.

(** X8.  A [set] on a key that is present replaces the value where the
    entry stands and leaves the order of the keys as it is; [delete] tells
    whether the key was present, and undoes a [set] of that key; a key that
    is deleted and set again is moved to the end. *)
Theorem Map_set_delete_order key value g :
  MapData_wf g →
  (Map_has key g = true → Map_keys (Map_set key value g) = Map_keys g)
  ∧ (Map_has key g = false → Map_set key value g = g ++ [(key, value)])
  ∧ (Map_delete key g).1 = Map_has key g
  ∧ (Map_delete key (Map_set key value g)).2 = (Map_delete key g).2
  ∧ Map_set key value (Map_delete key g).2 = (Map_delete key g).2 ++ [(key, value)].
Proof.
  intros Hwf. split_and!.
  - intros Hhas. by rewrite Map_keys_set, Hhas.
  - intros Hhas. apply Map_set_absent. rewrite <- Map_has_keys. congruence.
  - apply Map_delete_has.
  - apply Map_delete_set.
  - apply Map_set_absent. apply Map_get_None. by apply Map_get_delete_eq.
Qed.

Lemma foldl_set_fixed A (es : list (K * V)) :
  (∀ e, e ∈ es → Map_get e.1 A = Some e.2) →
  foldl (λ m e, Map_set e.1 e.2 m) A es = A.
Proof.
  induction es as [|e es IH]; intros Hes; csimpl; [done|].
  rewrite Map_set_get_same by (apply Hes; left). apply IH.
  intros e' He'. apply Hes. by right.
Qed.

Lemma foldl_set_app A B :
  MapData_wf (A ++ B) → foldl (λ m e, Map_set e.1 e.2 m) A B = A ++ B.
Proof.
  unfold MapData_wf, Map_keys. revert A.
  induction B as [|[k v] B IH]; intros A Hwf; csimpl.
  - by rewrite app_nil_r.
  - assert (k ∉ Map_keys A) as Hk.
    { unfold Map_keys. rewrite fmap_app in Hwf. csimpl in Hwf.
      apply NoDup_app in Hwf as (_ & Hdisj & _).
      intros Hk. apply (Hdisj k Hk). left. }
    rewrite Map_set_absent by done. rewrite IH.
    + by rewrite <- (assoc_L (++)).
    + by rewrite <- (assoc_L (++)).
Qed.

Lemma Map_keys_foldl_set A B :
  MapData_wf B →
  Map_keys (foldl (λ m e, Map_set e.1 e.2 m) A B)
  = Map_keys A ++ filter (λ key, key ∉ Map_keys A) (Map_keys B).
Proof.
  unfold MapData_wf. revert A.
  induction B as [|[k v] B IH]; intros A Hwf; csimpl.
  - by rewrite app_nil_r.
  - unfold Map_keys in Hwf. csimpl in Hwf. apply NoDup_cons in Hwf as [Hk Hwf].
    rewrite IH by done. rewrite Map_keys_set, filter_cons. csimpl.
    destruct (Map_has k A) eqn:Hhas.
    + apply Map_has_keys in Hhas. by rewrite decide_False by auto.
    + assert (k ∉ Map_keys A) as HkA by (rewrite <- Map_has_keys; congruence).
      rewrite decide_True by done. rewrite <- (assoc_L (++)). csimpl. do 2 f_equal.
      apply filter_ext_in. intros key Hkey. rewrite not_elem_of_app.
      rewrite list_elem_of_singleton. split; [tauto|]. intros Hn. split; [done|].
      intros ->. done.
Qed.
End OrderFacts.

(** ** More on [merge], [sweep] and [clone] *)

Section StoreMore.
Context {K V : Type} `{EqDecision K}.
Implicit Types (g A B : MapData K V) (σ : gmap Group.ref (MapData K V)).

Lemma foldl_set_wf A (es : list (K * V)) :
  MapData_wf A → MapData_wf (foldl (λ m e, Map_set e.1 e.2 m) A es).
Proof.
  revert A. induction es as [|e es IH]; intros A Hwf; csimpl; [done|].
  apply IH. by apply Map_set_wf.
Qed.

Lemma wf_entries_get B e : MapData_wf B → e ∈ B → Map_get e.1 B = Some e.2.
Proof. destruct e. apply Map_get_elem. Qed.

Lemma Group_merge_result (fuel : nat) (this group : Group.ref) σ A B :
  σ !! this = Some A →
  σ !! group = Some B →
  MapData_wf B →
  length B < fuel →
  Group.merge fuel this group σ
  = Some (this, <[this := foldl (λ m e, Map_set e.1 e.2 m) A B]> σ).
Proof.
  intros Hthis Hgroup Hwf Hfuel. unfold Group.merge, Group.Map_forEach.
  destruct (decide (this = group)) as [->|Hne].
  - assert (A = B) as -> by congruence.
    rewrite (Map_forEach_set_self fuel group 0 σ B) by (done || lia). csimpl.
    rewrite foldl_set_fixed by (intros; by apply wf_entries_get).
    by rewrite insert_id.
  - rewrite (Map_forEach_set_other fuel this group 0 σ A B) by (done || lia).
    by rewrite drop_0.
Qed.

(** X9.  After [merge] the keys the receiver had stand where they stood,
    followed by the keys only the other group had, in the order of the other
    group; the size grows by the number of those keys, and no key occurs
    twice. *)
Theorem Group_merge_keys (fuel : nat) (this group : Group.ref) σ A B :
  σ !! this = Some A →
  σ !! group = Some B →
  MapData_wf A →
  MapData_wf B →
  length B < fuel →
  ∃ A', Group.merge fuel this group σ = Some (this, <[this := A']> σ)
        ∧ Map_keys A' = Map_keys A ++ filter (λ key, key ∉ Map_keys A) (Map_keys B)
        ∧ Map_size A'
          = Map_size A + length (filter (λ key, key ∉ Map_keys A) (Map_keys B))
        ∧ MapData_wf A'.
Proof.
  intros Hthis Hgroup HwfA HwfB Hfuel.
  exists (foldl (λ m e, Map_set e.1 e.2 m) A B).
  assert (Map_keys (foldl (λ m e, Map_set e.1 e.2 m) A B)
          = Map_keys A ++ filter (λ key, key ∉ Map_keys A) (Map_keys B)) as Hkeys
    by by apply Map_keys_foldl_set.
  split_and!.
  - by apply Group_merge_result.
  - done.
  - apply (f_equal length) in Hkeys. rewrite length_app in Hkeys.
    unfold Map_keys in Hkeys at 1 2. rewrite !length_fmap in Hkeys. done.
  - by apply foldl_set_wf.
Qed.

(** X10.  Merging the same group a second time changes nothing. *)
Theorem Group_merge_idempotent (fuel : nat) (this group : Group.ref) σ A B :
  σ !! this = Some A →
  σ !! group = Some B →
  MapData_wf B →
  length B < fuel →
  ∃ σ', Group.merge fuel this group σ = Some (this, σ')
        ∧ Group.merge fuel this group σ' = Some (this, σ').
Proof.
  intros Hthis Hgroup Hwf Hfuel.
  set (A' := foldl (λ m e, Map_set e.1 e.2 m) A B).
  assert (∀ e, e ∈ B → Map_get e.1 A' = Some e.2) as Hheld.
  { intros e He. unfold A'. rewrite Map_get_foldl_set by done.
    by rewrite (wf_entries_get B e). }
  exists (<[this := A']> σ). split; [by apply Group_merge_result|].
  assert (<[this := A']> σ !! group = Some B) as Hgroup'.
  { destruct (decide (this = group)) as [->|Hne]; [|by rewrite lookup_insert_ne].
    rewrite lookup_insert_eq. f_equal. assert (A = B) as Heq by congruence.
    unfold A'. rewrite Heq. apply foldl_set_fixed. intros. by apply wf_entries_get. }
  rewrite (Group_merge_result fuel this group _ A' B);
    [| apply lookup_insert_eq | done..].
  by rewrite foldl_set_fixed, insert_insert_eq.
Qed.

Lemma Array_forEach_set (r : Group.ref) σ A (es : list (K * V)) :
  σ !! r = Some A →
  Group.Array_forEach (λ e σ, Group.set r e.1 e.2 σ) es σ
  = Some (<[r := foldl (λ m e, Map_set e.1 e.2 m) A es]> σ).
Proof.
  revert σ A. induction es as [|e es IH]; intros σ A Hr; csimpl.
  - by rewrite insert_id.
  - rewrite (Group_set_Some _ _ _ _ A) by done. csimpl.
    erewrite IH by apply lookup_insert_eq. by rewrite insert_insert_eq.
Qed.

(** X11.  [clone] yields a reference the store did not hold, behind which
    are the entries of the receiver in the same order; the receiver is left
    as it was, and a later [set] on either of the two groups does not show
    in the other. *)
Theorem Group_clone_spec (this : Group.ref) σ g :
  σ !! this = Some g →
  MapData_wf g →
  ∃ newGroup,
    Group.clone this σ = Some (newGroup, <[newGroup := g]> σ)
    ∧ σ !! newGroup = None
    ∧ newGroup ≠ this
    ∧ (∀ key value σ',
         Group.set newGroup key value (<[newGroup := g]> σ) = Some σ' →
         σ' !! this = Some g ∧ σ' !! newGroup = Some (Map_set key value g))
    ∧ (∀ key value σ',
         Group.set this key value (<[newGroup := g]> σ) = Some σ' →
         σ' !! newGroup = Some g ∧ σ' !! this = Some (Map_set key value g)).
Proof.
  intros Hthis Hwf. exists (fresh (dom σ)).
  assert (σ !! fresh (dom σ) = None) as Hfresh
    by (apply not_elem_of_dom, is_fresh).
  assert (fresh (dom σ) ≠ this) as Hne by (intros Heq; congruence).
  split_and!; [|done..| |].
  - unfold Group.clone. rewrite Hthis. csimpl. unfold Map_entries.
    rewrite (Array_forEach_set _ _ []) by apply lookup_insert_eq. csimpl.
    by rewrite insert_insert_eq, (foldl_set_app [] g).
  - intros key value σ'.
    rewrite (Group_set_Some _ _ _ _ g) by apply lookup_insert_eq.
    intros [= <-]. by rewrite insert_insert_eq, lookup_insert_eq, lookup_insert_ne.
  - intros key value σ'.
    rewrite (Group_set_Some _ _ _ _ g) by by rewrite lookup_insert_ne.
    intros [= <-]. by rewrite lookup_insert_eq, lookup_insert_ne, lookup_insert_eq.
Qed.

Lemma Group_sweep_pure (P : K * V → bool) (this : Group.ref) σ g :
  σ !! this = Some g →
  MapData_wf g →
  Group.sweep (λ e _ _, P e) this σ
  = Some (this, <[this := filter (λ e, P e = false) g]> σ).
Proof.
  intros Hthis Hwf. unfold Group.sweep. rewrite Hthis. csimpl.
  unfold Array_filter, Map_entries.
  rewrite filter_from_pure, (Array_forEach_delete this σ g) by done. csimpl.
  by rewrite foldl_delete_filter, sweep_kept.
Qed.

Lemma length_filter_split (P : K * V → bool) g :
  length (filter (λ e, P e = false) g) + length (filter (λ e, P e = true) g) = length g.
Proof.
  induction g as [|e g IH]; [done|]. rewrite !filter_cons.
  destruct (P e); csimpl; lia.
Qed.

Lemma filter_wf (Q : K * V → Prop) `{!∀ e, Decision (Q e)} g :
  MapData_wf g → MapData_wf (filter Q g).
Proof.
  unfold MapData_wf, Map_keys. intros Hwf.
  eapply sublist_NoDup; [done|]. apply fmap_sublist, sublist_filter.
Qed.

(** X12.  [sweep] lowers the size by the number of entries the predicate
    accepts and keeps the keys unique; a second [sweep] with the same
    predicate changes nothing; when the predicate accepts every entry the
    group ends up empty, and when it accepts none the group is unchanged. *)
Theorem Group_sweep_counts (P : K * V → bool) (this : Group.ref) σ g :
  σ !! this = Some g →
  MapData_wf g →
  ∃ g', Group.sweep (λ e _ _, P e) this σ = Some (this, <[this := g']> σ)
        ∧ Map_size g' + length (filter (λ e, P e = true) g) = Map_size g
        ∧ MapData_wf g'
        ∧ Group.sweep (λ e _ _, P e) this (<[this := g']> σ)
          = Some (this, <[this := g']> σ)
        ∧ ((∀ e, e ∈ g → P e = true) → Group.empty g' = true)
        ∧ ((∀ e, e ∈ g → P e = false) → g' = g).
Proof.
  intros Hthis Hwf. exists (filter (λ e, P e = false) g).
  assert (MapData_wf (filter (λ e, P e = false) g)) as Hwf' by by apply filter_wf.
  split_and!.
  - by apply Group_sweep_pure.
  - apply length_filter_split.
  - done.
  - rewrite (Group_sweep_pure P this _ (filter (λ e, P e = false) g));
      [| apply lookup_insert_eq | done].
    rewrite insert_insert_eq. do 3 f_equal.
    rewrite list_filter_filter. apply list_filter_iff. tauto.
  - intros Hall. apply Group_empty_size. unfold Map_size.
    assert (filter (λ e, P e = false) g = []) as ->; [|done].
    clear Hwf Hwf' Hthis. induction g as [|e g IH]; [done|].
    rewrite filter_cons_False by (rewrite Hall by left; done).
    apply IH. intros. apply Hall. by right.
  - intros Hnone. clear Hwf Hwf' Hthis. induction g as [|e g IH]; [done|].
    rewrite filter_cons_True by (apply Hnone; left).
    f_equal. apply IH. intros. apply Hnone. by right.
Qed.
End StoreMore.

Lemma Map_set_delete_order_witness :
  let g : MapData string Z := [("a", 1); ("b", 2)]%Z in
  Map_keys (Map_set "a" 9%Z g) = ["a"; "b"]
  ∧ Map_set "a" 9%Z (Map_delete "a" g).2 = [("b", 2%Z); ("a", 9%Z)].
Proof.
  intros g.
  assert (MapData_wf g) as Hwf by (apply (bool_decide_unpack _); vm_compute; exact I).
  destruct (Map_set_delete_order "a" 9%Z g Hwf) as (Hkeep & _ & _ & _ & Hlast).
  split.
  - rewrite Hkeep; reflexivity.
  - rewrite Hlast. reflexivity.
Defined.

Lemma Group_merge_keys_witness :
  let A : MapData string Z := [("a", 1); ("b", 2)]%Z in
  let B : MapData string Z := [("c", 30); ("a", 10); ("d", 40)]%Z in
  let σ : gmap Group.ref (MapData string Z) := {[ 0 := A; 1 := B ]} in
  ∃ A', Group.merge 4 0 1 σ = Some (0, <[0 := A']> σ)
        ∧ Map_keys A' = ["a"; "b"; "c"; "d"]
        ∧ Map_size A' = 4.
Proof.
  intros A B σ.
  destruct (Group_merge_keys 4 0 1 σ A B) as (A' & Hmerge & Hkeys & Hsize & _).
  - reflexivity.
  - reflexivity.
  - apply (bool_decide_unpack _). vm_compute. exact I.
  - apply (bool_decide_unpack _). vm_compute. exact I.
  - simpl. lia.
  - exists A'. split_and!; [exact Hmerge | rewrite Hkeys | rewrite Hsize]; reflexivity.
Defined.

Lemma Group_merge_idempotent_witness :
  let A : MapData string Z := [("a", 1); ("b", 2)]%Z in
  let B : MapData string Z := [("c", 30); ("a", 10)]%Z in
  let σ : gmap Group.ref (MapData string Z) := {[ 0 := A; 1 := B ]} in
  ∃ σ', Group.merge 3 0 1 σ = Some (0, σ') ∧ Group.merge 3 0 1 σ' = Some (0, σ').
Proof.
  intros A B σ. apply (Group_merge_idempotent 3 0 1 σ A B).
  - reflexivity.
  - reflexivity.
  - apply (bool_decide_unpack _). vm_compute. exact I.
  - simpl. lia.
Defined.

Lemma Group_clone_spec_witness :
  let g : MapData string Z := [("a", 1); ("b", 2)]%Z in
  let σ : gmap Group.ref (MapData string Z) := {[ 0 := g ]} in
  ∃ newGroup, Group.clone 0 σ = Some (newGroup, <[newGroup := g]> σ) ∧ newGroup ≠ 0.
Proof.
  intros g σ.
  destruct (Group_clone_spec 0 σ g) as (newGroup & Hclone & _ & Hne & _).
  - reflexivity.
  - apply (bool_decide_unpack _). vm_compute. exact I.
  - exists newGroup. split; [exact Hclone | exact Hne].
Defined.

Lemma Group_sweep_counts_witness :
  let g : MapData string Z := [("a", 1); ("b", 2); ("c", 3); ("d", 4)]%Z in
  let σ : gmap Group.ref (MapData string Z) := {[ 0 := g ]} in
  ∃ g', Group.sweep (λ e _ _, Z.even e.2) 0 σ = Some (0, <[0 := g']> σ)
        ∧ Map_size g' + 2 = 4.
Proof.
  intros g σ.
  destruct (Group_sweep_counts (λ e, Z.even e.2) 0 σ g) as (g' & Hsweep & Hsize & _).
  - reflexivity.
  - apply (bool_decide_unpack _). vm_compute. exact I.
  - exists g'. split; [exact Hsweep | exact Hsize].
Defined.

(** ** [toJSON], and [first] and [last] with an amount *)

Section MoreSlices.
Context {A : Type}.
Implicit Types (arr : list A).

Lemma Array_slice_prefix_negative arr (n : Z) :
  (n < 0)%Z → Array_slice arr 0 (Some n) = take (length arr - Z.to_nat (- n)) arr.
Proof.
  intros Hn. unfold Array_slice, relative_index.
  rewrite (proj2 (Z.ltb_lt n 0)) by done. change (0 <? 0)%Z with false. cbv iota.
  rewrite Z.min_l by lia. change (Z.to_nat 0) with 0. rewrite drop_0.
  f_equal. lia.
Qed.

Lemma Array_slice_suffix_negative arr (n : Z) :
  (n < 0)%Z → Array_slice arr (- n) None = drop (Z.to_nat (- n)) arr.
Proof.
  intros Hn. unfold Array_slice, relative_index.
  rewrite (proj2 (Z.ltb_ge (- n) 0)) by lia.
  rewrite take_ge by (rewrite length_drop; lia).
  destruct (decide (Z.to_nat (- n) ≤ length arr)).
  - f_equal. lia.
  - rewrite !drop_ge by lia. done.
Qed.
End MoreSlices.

Section Objects.
Context {K V : Type} `{EqDecision K} (ToPropertyKey : K → string).
Implicit Types (g : MapData K V).







(** X14.  With an amount n, [first] builds its object from the first n
    entries when n is not negative (from all of them when n is at least the
    size) and from all but the last -n entries when n is negative; [last]
    builds it from the last n entries when n is positive and from all but
    the first -n entries when n is negative. *)
Theorem Group_first_last_amounts g (n : Z) :
  ((0 ≤ n)%Z →
     Group.first ToPropertyKey (Some n) g
     = Group.PickedObject (Group.fromEntries ToPropertyKey (take (Z.to_nat n) g)))
  ∧ ((Z.of_nat (Map_size g) ≤ n)%Z →
     Group.first ToPropertyKey (Some n) g
     = Group.PickedObject (Group.toJSON ToPropertyKey g))
  ∧ ((n < 0)%Z →
     Group.first ToPropertyKey (Some n) g
     = Group.PickedObject
         (Group.fromEntries ToPropertyKey (take (Map_size g - Z.to_nat (- n)) g)))
  ∧ ((0 < n)%Z →
     Group.last ToPropertyKey (Some n) g
     = Group.PickedObject
         (Group.fromEntries ToPropertyKey (drop (Map_size g - Z.to_nat n) g)))
  ∧ ((n < 0)%Z →
     Group.last ToPropertyKey (Some n) g
     = Group.PickedObject (Group.fromEntries ToPropertyKey (drop (Z.to_nat (- n)) g))).
Proof.
  unfold Group.first, Group.last, Group.toJSON, Map_entries, Map_size. split_and!.
  - intros Hn. rewrite Array_slice_prefix by done. do 2 f_equal.
    destruct (decide (Z.to_nat n ≤ length g)).
    + f_equal. lia.
    + rewrite !take_ge by lia. done.
  - intros Hn. rewrite Array_slice_prefix by lia. do 2 f_equal. apply take_ge. lia.
  - intros Hn. by rewrite Array_slice_prefix_negative.
  - intros Hn. by rewrite Array_slice_suffix.
  - intros Hn. by rewrite Array_slice_suffix_negative.
Qed.
End Objects.


Lemma Group_first_last_amounts_witness :
  Group.first id (Some 2%Z) Scenario.abc = Group.PickedObject [("1", "a"); ("2", "b")]
  ∧ Group.first id (Some 7%Z) Scenario.abc
    = Group.PickedObject [("1", "a"); ("2", "b"); ("3", "c")]
  ∧ Group.first id (Some (-1)%Z) Scenario.abc
    = Group.PickedObject [("1", "a"); ("2", "b")]
  ∧ Group.last id (Some 1%Z) Scenario.abc = Group.PickedObject [("3", "c")]
  ∧ Group.last id (Some (-1)%Z) Scenario.abc
    = Group.PickedObject [("2", "b"); ("3", "c")].
Proof.
  destruct (Group_first_last_amounts id Scenario.abc 2) as (H2 & _).
  destruct (Group_first_last_amounts id Scenario.abc 7) as (_ & H7 & _).
  destruct (Group_first_last_amounts id Scenario.abc (-1)) as (_ & _ & Hf & _ & Hl).
  destruct (Group_first_last_amounts id Scenario.abc 1) as (_ & _ & _ & H1 & _).
  split_and!.
  - rewrite H2 by lia. reflexivity.
  - rewrite H7 by (simpl; lia). reflexivity.
  - rewrite Hf by lia. reflexivity.
  - rewrite H1 by lia. reflexivity.
  - rewrite Hl by lia. reflexivity.
Defined.

(** ** More on the role manager *)

Section ManagerMore.
Context `{RoleManager.Remote}.
Import RoleManager.

(** X15.  When the request of [create] is fulfilled, the role built from
    the answer is stored under the identifier the server chose and is the
    role returned; the roles under other identifiers are untouched and the
    keys stay unique.  When the request is rejected, the rejection is passed
    on and the manager is left as it was. *)
Theorem create_caches_role (options : CreateRoleOptions) (this : State) (w : World) :
  (∀ data w',
     api_post_GuildRoles (guild_id this) options w = (Normal data, w') →
     ∃ this',
       create options this w = (Normal (Some (new_Role data (guild_id this))), this', w')
       ∧ guild_id this' = guild_id this
       ∧ Map_get (RawGuildRole_id data) (cache this')
         = Some (new_Role data (guild_id this))
       ∧ (∀ key, key ≠ RawGuildRole_id data
                 → Map_get key (cache this') = Map_get key (cache this))
       ∧ (MapData_wf (cache this) → MapData_wf (cache this')))
  ∧ (∀ e w',
       api_post_GuildRoles (guild_id this) options w = (Throw e, w') →
       create options this w = (Throw e, this, w')).
Proof.
  split.
  - intros data w' Hpost. unfold create. rewrite Hpost. csimpl.
    rewrite Map_get_set_eq. eexists. split; [reflexivity|]. csimpl. split_and!.
    + done.
    + apply Map_get_set_eq.
    + intros key Hne. by apply Map_get_set_ne.
    + apply Map_set_wf.
  - intros e w' Hpost. unfold create. by rewrite Hpost.
Qed.

(** X16.  When the request of [delete] is fulfilled, the cache loses the
    entry of that identifier and nothing else, the order of the other
    entries being kept.  When the request is rejected, the rejection is
    passed on and the cache is left as it was. *)
Theorem delete_removes_only_that_role (role : RoleResolvable) (reason : option string)
    (this : State) (w : World) :
  (∀ w',
     api_delete_GuildRole (guild_id this) (id role) reason w = (Normal tt, w') →
     MapData_wf (cache this) →
     ∃ this',
       delete role reason this w = (Normal tt, this', w')
       ∧ guild_id this' = guild_id this
       ∧ cache this' = filter (λ e, e.1 ≠ id role) (cache this))
  ∧ (∀ e w',
       api_delete_GuildRole (guild_id this) (id role) reason w = (Throw e, w') →
       delete role reason this w = (Throw e, this, w')).
Proof.
  split.
  - intros w' Hdel Hwf. unfold delete. rewrite Hdel. eexists.
    split; [reflexivity|]. csimpl. split; [done|]. by apply Map_delete_filter.
  - intros e w' Hdel. unfold delete. by rewrite Hdel.
Qed.

(** X17.  After a [create] that succeeded, [edit] on the identifier of the
    new role hands that role to the role's own [edit] and returns what it
    returns; the manager is left as it was, so the cache still holds the
    role as it was created. *)
Theorem create_then_edit (options : CreateRoleOptions) (editOptions : EditRoleOptions)
    (role : RoleResolvable) (this : State) (w w1 : World) (data : RawGuildRole) :
  api_post_GuildRoles (guild_id this) options w = (Normal data, w1) →
  id role = RawGuildRole_id data →
  let created := new_Role data (guild_id this) in
  ∃ this1,
    create options this w = (Normal (Some created), this1, w1)
    ∧ edit role editOptions this1 w1
      = ((Role_edit created editOptions w1).1, this1, (Role_edit created editOptions w1).2)
    ∧ Map_get (id role) (cache this1) = Some created.
Proof.
  intros Hpost Hid created. unfold create. rewrite Hpost. csimpl.
  rewrite Map_get_set_eq. eexists. split; [reflexivity|].
  unfold edit. csimpl. by rewrite Hid, Map_get_set_eq.
Qed.

(** X18.  A role that was created and then deleted cannot be edited: after
    the two requests have succeeded, [edit] on its identifier throws, and
    the roles under the other identifiers are the ones the cache held before
    the [create]. *)
Theorem create_delete_edit (options : CreateRoleOptions) (editOptions : EditRoleOptions)
    (reason : option string) (role : RoleResolvable) (this : State) (w w1 w2 : World)
    (data : RawGuildRole) :
  MapData_wf (cache this) →
  api_post_GuildRoles (guild_id this) options w = (Normal data, w1) →
  id role = RawGuildRole_id data →
  api_delete_GuildRole (guild_id this) (id role) reason w1 = (Normal tt, w2) →
  ∃ this1 this2,
    create options this w = (Normal (Some (new_Role data (guild_id this))), this1, w1)
    ∧ delete role reason this1 w1 = (Normal tt, this2, w2)
    ∧ edit role editOptions this2 w2
      = (Throw (TypeError_property_of_undefined "edit"), this2, w2)
    ∧ (∀ key, key ≠ id role → Map_get key (cache this2) = Map_get key (cache this)).
Proof.
  intros Hwf Hpost Hid Hdel. unfold create. rewrite Hpost. csimpl.
  rewrite Map_get_set_eq. eexists. eexists. split; [reflexivity|].
  unfold delete. csimpl. rewrite Hdel. split; [reflexivity|]. split.
  - unfold edit. csimpl. rewrite Hid.
    rewrite Map_get_delete_eq by by apply Map_set_wf. done.
  - intros key Hne. csimpl.
    rewrite Map_get_delete_ne by done. apply Map_get_set_ne. congruence.
Qed.
End ManagerMore.


Section ManagerConstruction.
Context `{RoleManager.Registry}.
Import RoleManager.

(** X20.  The constructor of the manager never returns a manager: it
    throws, and when the constructor of [BasicManager] returns, what is
    thrown is the error of reading [guildId] off the [undefined] that
    [first] yields on the cache, which is empty at that point. *)
Theorem constructor_always_throws (client : Client) :
  ∃ e, constructor client = Throw e
       ∧ (BasicManager_constructor client = Normal tt
          → e = TypeError_property_of_undefined "guildId").
Proof.
  unfold constructor. destruct (BasicManager_constructor client) as [[]|e].
  - eexists. split; [reflexivity | done].
  - exists e. split; [done | discriminate].
Qed.
End ManagerConstruction.

Lemma create_caches_role_witness :
  (∃ this', @RoleManager.create Scenario.remote "Admin" Scenario.manager tt
            = (Normal (Some "Admin"), this', tt)
            ∧ Map_get "42" (RoleManager.cache this') = Some "Admin")
  ∧ @RoleManager.create Scenario.rejecting_remote "Admin" Scenario.refused_manager tt
    = (Throw (RequestRejected 403), Scenario.refused_manager, tt).
Proof.
  split.
  - destruct (proj1 (@create_caches_role Scenario.remote "Admin" Scenario.manager tt)
                ("42", "Admin") tt eq_refl) as (this' & Hcreate & _ & Hget & _).
    exists this'. split; [exact Hcreate | exact Hget].
  - exact (proj2 (@create_caches_role Scenario.rejecting_remote "Admin"
                    Scenario.refused_manager tt)
             (RequestRejected 403) tt eq_refl).
Defined.

Lemma delete_removes_only_that_role_witness :
  (∃ this', @RoleManager.delete Scenario.remote Scenario.role_42 None Scenario.manager tt
            = (Normal tt, this', tt)
            ∧ RoleManager.cache this' = [])
  ∧ @RoleManager.delete Scenario.rejecting_remote Scenario.role_42 None
      Scenario.refused_manager tt
    = (Throw (RequestRejected 403), Scenario.refused_manager, tt).
Proof.
  split.
  - destruct (proj1 (@delete_removes_only_that_role Scenario.remote Scenario.role_42 None
                       Scenario.manager tt) tt eq_refl)
      as (this' & Hdelete & _ & Hcache).
    + apply (bool_decide_unpack _). vm_compute. exact I.
    + exists this'. split; [exact Hdelete|]. rewrite Hcache. reflexivity.
  - exact (proj2 (@delete_removes_only_that_role Scenario.rejecting_remote
                    Scenario.role_42 None Scenario.refused_manager tt)
             (RequestRejected 403) tt eq_refl).
Defined.

Lemma create_then_edit_witness :
  ∃ this1,
    @RoleManager.create Scenario.remote "Admin" Scenario.manager tt
    = (Normal (Some "Admin"), this1, tt)
    ∧ @RoleManager.edit Scenario.remote Scenario.role_42 "Mod" this1 tt
      = (Normal "Mod", this1, tt)
    ∧ Map_get "42" (RoleManager.cache this1) = Some "Admin".
Proof.
  exact (@create_then_edit Scenario.remote "Admin" "Mod" Scenario.role_42
           Scenario.manager tt tt ("42", "Admin") eq_refl eq_refl).
Defined.

Lemma create_delete_edit_witness :
  ∃ this1 this2,
    @RoleManager.create Scenario.remote "Admin" Scenario.manager tt
    = (Normal (Some "Admin"), this1, tt)
    ∧ @RoleManager.delete Scenario.remote Scenario.role_42 None this1 tt
      = (Normal tt, this2, tt)
    ∧ @RoleManager.edit Scenario.remote Scenario.role_42 "Mod" this2 tt
      = (Throw (TypeError_property_of_undefined "edit"), this2, tt).
Proof.
  destruct (@create_delete_edit Scenario.remote "Admin" "Mod" None Scenario.role_42
              Scenario.manager tt tt tt ("42", "Admin"))
    as (this1 & this2 & Hcreate & Hdelete & Hedit & _).
  - apply (bool_decide_unpack _). vm_compute. exact I.
  - reflexivity.
  - reflexivity.
  - reflexivity.
  - exists this1, this2. split_and!; [exact Hcreate | exact Hdelete | exact Hedit].
Defined.

Lemma constructor_always_throws_witness :
  @RoleManager.constructor Scenario.remote Scenario.registry tt
  = Throw (TypeError_property_of_undefined "guildId").
Proof.
  destruct (@constructor_always_throws Scenario.remote Scenario.registry tt)
    as (e & Hthrow & He).
  rewrite Hthrow, He; reflexivity.
Defined.

(** ** More on the predicates of an interaction *)

Section ClassifierMore.
Context `{Entities} `{Enums}.
Import BasicInteraction.

Lemma truthy_true (s : option string) :
  truthy s = true ↔ ∃ s', s = Some s' ∧ s' ≠ EmptyString.
Proof.
  destruct s as [s'|]; csimpl.
  - rewrite negb_true_iff, String.eqb_neq. split.
    + intros Hne. by exists s'.
    + by intros (? & [= <-] & Hne).
  - split; [done | by intros (? & ? & _)].
Qed.

Lemma strict_eq_Some (z c : Z) : strict_eq (Some z) c = bool_decide (z = c).
Proof. unfold strict_eq. apply bool_decide_ext. naive_solver. Qed.

Lemma strict_eq_None (c : Z) : strict_eq None c = false.
Proof. done. Qed.

Lemma isAnySelectMenu_orb (this : BasicInteraction.t) :
  isAnySelectMenu this
  = isStringSelectMenu this || isChannelSelectMenu this || isMentionableSelectMenu this
    || isRoleSelectMenu this || isUserSelectMenu this.
Proof.
  apply Bool.eq_iff_eq_true.
  unfold isAnySelectMenu, includes, isStringSelectMenu, isChannelSelectMenu,
    isMentionableSelectMenu, isRoleSelectMenu, isUserSelectMenu.
  rewrite !orb_true_iff, bool_decide_eq_true, !strict_eq_true. csimpl.
  rewrite !elem_of_cons, elem_of_nil. tauto.
Qed.

(** Case analysis on whether [z] is the member [c] of an enumeration whose
    members are known to differ. *)
Ltac enum_case z c :=
  destruct (decide (z = c)) as [->|?];
  [ rewrite (bool_decide_eq_true_2 (c = c)) by done;
    rewrite ?bool_decide_eq_false_2 by congruence;
    simpl; lia
  | rewrite (bool_decide_eq_false_2 (z = c)) by done ].

(** X21.  When the primary types have different numbers, at most one of
    the four predicates on the primary type holds of an interaction. *)
Theorem primary_type_exclusive (this : BasicInteraction.t) :
  InteractionTypes_distinct →
  Nat.b2n (isApplicationCommand this) + Nat.b2n (isMessageComponent this)
  + Nat.b2n (isApplicationCommandAutocomplete this) + Nat.b2n (isModalSubmit this) ≤ 1.
Proof.
  unfold InteractionTypes_distinct. rewrite !NoDup_cons, !not_elem_of_cons.
  intros ((? & ? & ? & _) & (? & ? & _) & (? & _) & _).
  unfold isApplicationCommand, isMessageComponent, isApplicationCommandAutocomplete,
    isModalSubmit.
  destruct (type this) as [z|]; [|rewrite !strict_eq_None; simpl; lia].
  rewrite !strict_eq_Some.
  enum_case z InteractionTypes_ApplicationCommand.
  enum_case z InteractionTypes_MessageComponent.
  enum_case z InteractionTypes_ApplicationCommandAutocomplete.
  enum_case z InteractionTypes_ModalSubmit.
  simpl. lia.
Qed.

(** X22.  When the component types have different numbers, exactly as many
    of the five select-menu predicates hold as [isAnySelectMenu] says (one
    or none), and at most one of [isButton], [isTextInput] and
    [isAnySelectMenu] holds. *)
Theorem component_type_exclusive (this : BasicInteraction.t) :
  ComponentTypes_distinct →
  Nat.b2n (isStringSelectMenu this) + Nat.b2n (isChannelSelectMenu this)
  + Nat.b2n (isMentionableSelectMenu this) + Nat.b2n (isRoleSelectMenu this)
  + Nat.b2n (isUserSelectMenu this)
  = Nat.b2n (isAnySelectMenu this)
  ∧ Nat.b2n (isButton this) + Nat.b2n (isTextInput this)
    + Nat.b2n (isAnySelectMenu this) ≤ 1.
Proof.
  unfold ComponentTypes_distinct. rewrite !NoDup_cons, !not_elem_of_cons.
  intros ((? & ? & ? & ? & ? & ? & _) & (? & ? & ? & ? & ? & _) & (? & ? & ? & ? & _)
          & (? & ? & ? & _) & (? & ? & _) & (? & _) & _).
  rewrite isAnySelectMenu_orb.
  unfold isStringSelectMenu, isChannelSelectMenu, isMentionableSelectMenu,
    isRoleSelectMenu, isUserSelectMenu, isButton, isTextInput.
  destruct (component_type this) as [z|]; [|rewrite !strict_eq_None; simpl; lia].
  rewrite !strict_eq_Some.
  enum_case z ComponentTypes_Button.
  enum_case z ComponentTypes_StringSelectMenu.
  enum_case z ComponentTypes_TextInput.
  enum_case z ComponentTypes_UserSelectMenu.
  enum_case z ComponentTypes_RoleSelectMenu.
  enum_case z ComponentTypes_MentionableSelectMenu.
  enum_case z ComponentTypes_ChannelSelectMenu.
  simpl. lia.
Qed.

(** X23.  [isUserContextMenu] and [isMessageContextMenu] never hold
    together; [isAnyContextMenu] holds without either of them when the
    nested type is neither of the two menu types; and a target identifier
    that is the empty string makes all three false. *)
Theorem context_menu_predicates (this : BasicInteraction.t) :
  isUserContextMenu this && isMessageContextMenu this = false
  ∧ (isAnyContextMenu this = true →
     data_type this ≠ Some ContextMenuTypes.User →
     data_type this ≠ Some ContextMenuTypes.Message →
     isUserContextMenu this = false ∧ isMessageContextMenu this = false)
  ∧ (data_target_id this = Some EmptyString →
     isAnyContextMenu this = false ∧ isUserContextMenu this = false
     ∧ isMessageContextMenu this = false).
Proof.
  unfold isUserContextMenu, isMessageContextMenu, isAnyContextMenu, strict_eq.
  split_and!.
  - destruct (truthy (data_target_id this)); [|done]. csimpl.
    repeat case_bool_decide; simplify_eq; done.
  - intros -> Huser Hmessage. csimpl. by rewrite !bool_decide_eq_false_2.
  - intros ->. done.
Qed.

Lemma constructor_reads_payload (data : RawInteractionData.t) (c : Client) :
  ∃ this, constructor data c = Normal this
    ∧ type this = RawInteractionData.type data
    ∧ component_type this = RawInteractionData.data data ≫= IInteractionData.component_type
    ∧ data_target_id this = RawInteractionData.data data ≫= IInteractionData.target_id
    ∧ data_type this = RawInteractionData.data data ≫= IInteractionData.type
    ∧ guild_id_of (guild this)
      = match RawInteractionData.guild data with
        | Some raw => RawGuild_id raw
        | None => Guild_id (new_Guild None c)
        end.
Proof.
  eexists. split; [reflexivity|]. unfold data_target_id, data_type. csimpl.
  unfold assign_scalar, assign_slot. split_and!; by repeat case_match; simplify_eq.
Qed.

(** X24.  An interaction constructed from a payload whose type is that of
    an application command and whose nested data carries a non-empty target
    identifier and the user menu type is an application command and a user
    context menu, and is no message context menu. *)
Theorem constructed_user_context_menu (data : RawInteractionData.t) (c : Client)
    (d : IInteractionData.t) (target : string) :
  RawInteractionData.type data = Some InteractionTypes_ApplicationCommand →
  RawInteractionData.data data = Some d →
  IInteractionData.target_id d = Some target →
  target ≠ EmptyString →
  IInteractionData.type d = Some ContextMenuTypes.User →
  ∃ this, constructor data c = Normal this
    ∧ isApplicationCommand this = true
    ∧ isUserContextMenu this = true
    ∧ isMessageContextMenu this = false
    ∧ isAnyContextMenu this = true.
Proof.
  intros Htype Hdata Htarget Hne Hmenu.
  destruct (constructor_reads_payload data c) as (this & Hc & Ht & _ & Htid & Hdt & _).
  exists this. split; [done|].
  unfold isApplicationCommand, isUserContextMenu, isMessageContextMenu, isAnyContextMenu,
    strict_eq.
  rewrite Ht, Htid, Hdt, Htype, Hdata. csimpl. rewrite Htarget, Hmenu.
  assert (truthy (Some target) = true) as -> by (apply truthy_true; eauto).
  split_and!.
  - by apply bool_decide_eq_true_2.
  - by rewrite bool_decide_eq_true_2.
  - reflexivity.
  - done.
Qed.

(** X25.  The guild predicates of a constructed interaction read the
    identifier of the raw guild payload when the payload has one, and that
    of the guild built from the missing payload otherwise; [inUncachedGuild]
    is the negation of [inCachedGuild]. *)
Theorem constructed_guild_predicates (data : RawInteractionData.t) (c : Client) :
  ∃ this, constructor data c = Normal this
    ∧ let guild_id := match RawInteractionData.guild data with
                      | Some raw => RawGuild_id raw
                      | None => Guild_id (new_Guild None c)
                      end in
      inGuild this = truthy guild_id
      ∧ inCachedGuild this = guilds_cache_has c guild_id
      ∧ inUncachedGuild this = negb (inCachedGuild this).
Proof.
  destruct (constructor_reads_payload data c) as (this & Hc & _ & _ & _ & _ & Hg).
  exists this. split; [done|]. csimpl.
  unfold inGuild, inCachedGuild, inUncachedGuild. rewrite Hg.
  injection Hc as <-. done.
Qed.
End ClassifierMore.

Lemma primary_type_exclusive_witness :
  @BasicInteraction.InteractionTypes_distinct Scenario.enums
  ∧ Nat.b2n (@BasicInteraction.isApplicationCommand Scenario.entities Scenario.enums
               Scenario.user_menu_interaction)
    + Nat.b2n (@BasicInteraction.isMessageComponent Scenario.entities Scenario.enums
                 Scenario.user_menu_interaction)
    + Nat.b2n (@BasicInteraction.isApplicationCommandAutocomplete Scenario.entities
                 Scenario.enums Scenario.user_menu_interaction)
    + Nat.b2n (@BasicInteraction.isModalSubmit Scenario.entities Scenario.enums
                 Scenario.user_menu_interaction) ≤ 1.
Proof.
  assert (@BasicInteraction.InteractionTypes_distinct Scenario.enums) as Hdistinct
    by (apply (bool_decide_unpack _); vm_compute; exact I).
  split; [exact Hdistinct|].
  exact (@primary_type_exclusive Scenario.entities Scenario.enums
           Scenario.user_menu_interaction Hdistinct).
Defined.

Lemma component_type_exclusive_witness :
  @BasicInteraction.ComponentTypes_distinct Scenario.enums
  ∧ @BasicInteraction.isButton Scenario.entities Scenario.enums
      Scenario.button_interaction = true
  ∧ Nat.b2n (@BasicInteraction.isButton Scenario.entities Scenario.enums
               Scenario.button_interaction)
    + Nat.b2n (@BasicInteraction.isTextInput Scenario.entities Scenario.enums
                 Scenario.button_interaction)
    + Nat.b2n (@BasicInteraction.isAnySelectMenu Scenario.entities Scenario.enums
                 Scenario.button_interaction) ≤ 1.
Proof.
  assert (@BasicInteraction.ComponentTypes_distinct Scenario.enums) as Hdistinct
    by (apply (bool_decide_unpack _); vm_compute; exact I).
  split_and!; [exact Hdistinct | reflexivity |].
  exact (proj2 (@component_type_exclusive Scenario.entities Scenario.enums
                  Scenario.button_interaction Hdistinct)).
Defined.

Lemma context_menu_predicates_witness :
  @BasicInteraction.isAnyContextMenu Scenario.entities Scenario.targeted_command = true
  ∧ @BasicInteraction.isUserContextMenu Scenario.entities Scenario.targeted_command = false
  ∧ @BasicInteraction.isMessageContextMenu Scenario.entities Scenario.targeted_command
    = false.
Proof.
  split; [reflexivity|].
  apply (proj1 (proj2 (@context_menu_predicates Scenario.entities
                         Scenario.targeted_command))).
  - reflexivity.
  - discriminate.
  - discriminate.
Defined.

Lemma constructed_user_context_menu_witness :
  ∃ this, @BasicInteraction.constructor Scenario.entities Scenario.user_menu_payload []
          = Normal this
    ∧ @BasicInteraction.isApplicationCommand Scenario.entities Scenario.enums this = true
    ∧ @BasicInteraction.isUserContextMenu Scenario.entities this = true
    ∧ @BasicInteraction.isMessageContextMenu Scenario.entities this = false
    ∧ @BasicInteraction.isAnyContextMenu Scenario.entities this = true.
Proof.
  refine (@constructed_user_context_menu Scenario.entities Scenario.enums
            Scenario.user_menu_payload [] _ "99" eq_refl eq_refl eq_refl _ eq_refl).
  discriminate.
Defined.
